(** * The Markdown formatting engine of the editor ([applyFormat], src/App.tsx)

    A shallow embedding of [applyFormat] and of the JavaScript string
    operations it is written with, followed by the properties of the
    formatting engine stated in the specification; then the handlers of the
    application around it ([handleFormat], [handleAiAction], the view
    cycle), the counts of the status bar and the transcript of the chat
    window, with the properties the code shows for them.

    Strings are sequences of UTF-16 code units, offsets and counts are
    integers ([Z]); the answers of the blocking [prompt] dialogs are an
    explicit input; the exception the function can raise (the [RangeError]
    of [Array(n)] and of a string longer than the engine makes) is an
    explicit outcome. *)

From Stdlib Require Import Strings.Ascii Strings.String.
From Stdlib Require Import Bool NArith ZArith Lia Decimal DecimalPos List.
Import ListNotations.
Open Scope Z_scope.

(** ** JavaScript strings *)

Module JS.

(** A string is the list of its UTF-16 code units. *)
Abbreviation char16 := N (only parsing).
Abbreviation jsstring := (list N) (only parsing).

(** String literals of the source; all of them are ASCII. *)
Definition lit (s : string) : jsstring :=
  map N_of_ascii (list_ascii_of_string s).
Arguments lit s%_string.

(** The newline and the double quote, which a literal here cannot hold. *)
Definition NL : char16 := 10%N.
Definition DQ : char16 := 34%N.

(** [s.length] *)
Definition len (s : jsstring) : Z := Z.of_nat (length s).

(** [s.substring(a, b)]: both arguments are clamped to [0, s.length] and
    swapped when [a > b]. *)
Definition substring (s : jsstring) (a b : Z) : jsstring :=
  let a' := Z.min (Z.max a 0) (len s) in
  let b' := Z.min (Z.max b 0) (len s) in
  let from := Z.min a' b' in
  let to := Z.max a' b' in
  firstn (Z.to_nat (to - from)) (skipn (Z.to_nat from) s).

(** [s.substring(a)]: the end defaults to [s.length]. *)
Definition substringFrom (s : jsstring) (a : Z) : jsstring :=
  substring s a (len s).

(** [s.startsWith(p)] *)
Fixpoint startsWith (s p : jsstring) {struct p} : bool :=
  match p, s with
  | [], _ => true
  | _ :: _, [] => false
  | a :: p', b :: s' => N.eqb a b && startsWith s' p'
  end.

(** The smallest index [k >= base] at which [p] occurs in [s], where [s] is
    the rest of a string from offset [base]; -1 when there is none. *)
Fixpoint indexFrom (p s : jsstring) (base : Z) : Z :=
  if startsWith s p then base
  else match s with
       | [] => -1
       | _ :: s' => indexFrom p s' (base + 1)
       end.

(** [s.indexOf(p, pos)] *)
Definition indexOf (s p : jsstring) (pos : Z) : Z :=
  let k := Z.min (Z.max pos 0) (len s) in
  indexFrom p (skipn (Z.to_nat k) s) k.

(** The largest index [k' <= k] at which [p] occurs in [s]; -1 when there is
    none. *)
Fixpoint lastIndexUpTo (s p : jsstring) (k : nat) : Z :=
  if startsWith (skipn k s) p then Z.of_nat k
  else match k with
       | O => -1
       | S k' => lastIndexUpTo s p k'
       end.

(** [s.lastIndexOf(p, pos)]: the position is clamped to [0, s.length], so a
    negative position still looks at index 0. *)
Definition lastIndexOf (s p : jsstring) (pos : Z) : Z :=
  lastIndexUpTo s p (Z.to_nat (Z.min (Z.max pos 0) (len s))).

(** [s.replace(p, r)] with a string pattern: the first occurrence of [p] is
    replaced, a string without occurrence is returned as it is. *)
Fixpoint replace (s p r : jsstring) : jsstring :=
  if startsWith s p then r ++ skipn (length p) s
  else match s with
       | [] => []
       | c :: s' => c :: replace s' p r
       end.

(** The code units [trim], [parseInt] and the regular expression class [\s]
    treat as white space: WhiteSpace and LineTerminator of ECMAScript. *)
Definition isWhiteSpace (c : char16) : bool :=
  (existsb (N.eqb c)
     [9; 10; 11; 12; 13; 32; 160; 5760; 8232; 8233; 8239; 8287; 12288; 65279]
   || ((8192 <=? c) && (c <=? 8202)))%N.

Fixpoint trimStart (s : jsstring) : jsstring :=
  match s with
  | [] => []
  | c :: s' => if isWhiteSpace c then trimStart s' else s
  end.

Definition trimEnd (s : jsstring) : jsstring := rev (trimStart (rev s)).

(** [s.trim()] *)
Definition trim (s : jsstring) : jsstring := trimEnd (trimStart s).

(** [s.split(sep)] for a separator of one code unit; the result is never
    empty: the empty string splits into one empty string. *)
Fixpoint split (sep : char16) (s : jsstring) : list jsstring :=
  match s with
  | [] => [[]]
  | c :: s' =>
      if N.eqb c sep then [] :: split sep s'
      else match split sep s' with
           | [] => [[c]]
           | l :: ls => (c :: l) :: ls
           end
  end.

(** [a.join(sep)] *)
Fixpoint join (sep : jsstring) (a : list jsstring) : jsstring :=
  match a with
  | [] => []
  | [x] => x
  | x :: a' => x ++ sep ++ join sep a'
  end.

(** The class [\d]: ASCII digits only. *)
Definition isDigit (c : char16) : bool := ((48 <=? c) && (c <=? 57))%N.

Fixpoint spanDigits (s : jsstring) : jsstring * jsstring :=
  match s with
  | [] => ([], [])
  | c :: s' =>
      if isDigit c then let (d, r) := spanDigits s' in (c :: d, r)
      else ([], s)
  end.

(** The match of [/^\d+\.\s/] on [s]: the rest of [s] after the match when
    there is one. The expression is anchored at the start of the input, and
    a digit is never a dot, so the greedy [\d+] never backtracks. *)
Definition matchNumbered (s : jsstring) : option jsstring :=
  match spanDigits s with
  | (_ :: _, dot :: sp :: rest) =>
      if N.eqb dot 46 && isWhiteSpace sp then Some rest else None
  | _ => None
  end.

(** [/^\d+\.\s/.test(s)] *)
Definition testNumbered (s : jsstring) : bool :=
  match matchNumbered s with Some _ => true | None => false end.

(** [s.replace(/^\d+\.\s/, '')] *)
Definition replaceNumbered (s : jsstring) : jsstring :=
  match matchNumbered s with Some rest => rest | None => s end.

(** The value of a digit string in radix 10. *)
Definition digitsValue (d : jsstring) : Z :=
  fold_left (fun acc c => 10 * acc + (Z.of_N c - 48)) d 0.

(** [parseInt(s, 10)]: leading white space is skipped, one sign is read, then
    the longest run of digits; [None] is NaN. The number is kept exact: the
    caller only tests it against 0 and passes it to [Array], which refuses
    everything from 2^32 on, and below 2^53 a double holds it exactly. *)
Definition parseInt (s : jsstring) : option Z :=
  let s1 := trimStart s in
  let (sign, s2) :=
    match s1 with
    | c :: r => if N.eqb c 45 then (-1, r)
                else if N.eqb c 43 then (1, r) else (1, s1)
    | [] => (1, s1)
    end in
  match fst (spanDigits s2) with
  | [] => None
  | d => Some (sign * digitsValue d)
  end.

Fixpoint uintCodes (u : Decimal.uint) : jsstring :=
  match u with
  | Nil => []
  | D0 u => 48%N :: uintCodes u
  | D1 u => 49%N :: uintCodes u
  | D2 u => 50%N :: uintCodes u
  | D3 u => 51%N :: uintCodes u
  | D4 u => 52%N :: uintCodes u
  | D5 u => 53%N :: uintCodes u
  | D6 u => 54%N :: uintCodes u
  | D7 u => 55%N :: uintCodes u
  | D8 u => 56%N :: uintCodes u
  | D9 u => 57%N :: uintCodes u
  end.

(** The string of an integer Number in a template literal (exact for the
    array indices it is used on). *)
Definition numberToString (z : Z) : jsstring :=
  match z with
  | Z0 => [48%N]
  | Zpos p => uintCodes (Pos.to_uint p)
  | Zneg p => 45%N :: uintCodes (Pos.to_uint p)
  end.

(** What a call can end in: a value, or a [RangeError]: that of [Array(n)]
    or that of a string that is too long. *)
Inductive outcome (A : Type) : Type :=
| Returns (a : A)
| RangeError.
Arguments Returns {A} a.
Arguments RangeError {A}.

Definition bind {A B : Type} (m : outcome A) (k : A -> outcome B) : outcome B :=
  match m with
  | Returns a => k a
  | RangeError => RangeError
  end.

(** [Array(n)] for an integer [n]: an array length lies in [0, 2^32 - 1],
    any other number raises. The result is the length of the new array. *)
Definition arrayOfLength (n : Z) : outcome nat :=
  if (0 <=? n) && (n <? 2 ^ 32) then Returns (Z.to_nat n) else RangeError.

(** The longest string the engine makes, in code units: the limit of V8,
    the engine of Chrome and of Node.js. ECMAScript allows no string of
    more than 2^53 - 1 code units and leaves a lower limit to the engine. *)
Definition maxStringLength : Z := 2 ^ 29 - 24.

(** A string the program builds by [join], by [+] or in a template literal:
    beyond the limit the engine raises [RangeError: Invalid string length].
    The strings checked are those of the [table] branch, whose length the
    two counts decide; the document itself is taken as the editor holds
    it. *)
Definition newString (s : jsstring) : outcome jsstring :=
  if len s <=? maxStringLength then Returns s else RangeError.

(** The answer of [prompt]: the string entered, or [null] when the dialog is
    cancelled. *)
Definition answer := option jsstring.

(** Truthiness of [string | null]: [null] and the empty string are falsy. *)
Definition truthy (a : answer) : bool :=
  match a with
  | Some (_ :: _) => true
  | _ => false
  end.

(** [a || d] *)
Definition orElse (a : answer) (d : jsstring) : jsstring :=
  match a with
  | Some (c :: s) => c :: s
  | _ => d
  end.

(** [`${a}`]: [null] is written out as the text null. *)
Definition toString (a : answer) : jsstring :=
  match a with
  | Some s => s
  | None => lit "null"
  end.

End JS.

Import JS.

Notation "x <- m ;; k" := (bind m (fun x => k))
  (at level 61, m at next level, right associativity).

(** [Array(n).fill(x)] *)
Definition arrayFill {A : Type} (n : Z) (x : A) : outcome (list A) :=
  k <- arrayOfLength n ;; Returns (repeat x k).

(** ** The formatting engine *)

(** [FormatAction] of src/types.ts. *)
Inductive FormatAction : Type :=
| bold | italic | strikethrough | code
| link | image | table
| ul | ol
| h1 | h2 | h3 | h4 | h5 | h6.

(** What the user answers to the [prompt] dialogs of [applyFormat], one field
    per call in the order of the source: the link URL; the image URL, its alt
    text and its width; the number of columns and of rows of a table. *)
Record Prompts : Type := {
  url : answer;
  imgUrl : answer;
  altText : answer;
  width : answer;
  colsAnswer : answer;
  rowsAnswer : answer
}.

Record Range : Type := { start : Z; end_ : Z }.

Record FormatResult : Type := {
  newMarkdown : jsstring;
  newSelection : Range
}.

(** The three variables the branches of the [switch] assign before the
    common exit of [applyFormat]. *)
Record Edit : Type := {
  newText : jsstring;
  newSelectionStart : Z;
  newSelectionEnd : Z
}.

(** [parseInt(prompt(..., "2") || "2", 10)] on the answer of the dialog. *)
Definition promptCount (a : answer) : option Z :=
  parseInt (orElse a (lit "2")).

Section ApplyFormat.

Variable P : Prompts.
Variable markdown : jsstring.
Variables start0 end0 : Z.

(** [const selection = markdown.substring(start, end)] *)
Definition selection : jsstring := substring markdown start0 end0.

(** [wrap(prefix)]; the suffix defaults to the prefix. Both arms of the two
    conditionals on [selection] are kept as they are written. *)
Definition wrap (prefix : jsstring) : Edit :=
  let suffix := prefix in
  {| newText := prefix ++ selection ++ suffix;
     newSelectionStart :=
       match selection with
       | _ :: _ => start0 + len prefix
       | [] => start0 + len prefix
       end;
     newSelectionEnd :=
       match selection with
       | _ :: _ => start0 + len prefix + len selection
       | [] => start0 + len prefix
       end |}.

(** [applyLineFormatting(linePrefix)] *)
Definition applyLineFormatting (linePrefix : jsstring) : Edit :=
  let selectedLines := split NL selection in
  let allLinesStartWithPrefix :=
    forallb (fun line => startsWith (trim line) linePrefix) selectedLines in
  let text :=
    if allLinesStartWithPrefix
    then join [NL] (map (fun line => replace line linePrefix []) selectedLines)
    else join [NL]
           (map (fun line => if startsWith (trim line) linePrefix then line
                             else linePrefix ++ line) selectedLines) in
  {| newText := text;
     newSelectionStart := start0;
     newSelectionEnd := start0 + len text |}.

(** The bounds of the line [prefixLine] works on. *)
Definition lineStart : Z := lastIndexOf markdown [NL] (start0 - 1) + 1.

Definition lineEnd : Z :=
  let lineEnd := indexOf markdown [NL] start0 in
  if lineEnd =? -1 then len markdown else lineEnd.

Definition currentLine : jsstring := substring markdown lineStart lineEnd.

(** [prefixLine(prefix)] *)
Definition prefixLine (prefix : jsstring) : FormatResult :=
  let line := currentLine in
  if startsWith (trim line) prefix then
    let newLine := replace line prefix [] in
    {| newMarkdown :=
         substring markdown 0 lineStart ++ newLine ++ substringFrom markdown lineEnd;
       newSelection :=
         {| start := Z.max lineStart (start0 - len prefix);
            end_ := end0 - len prefix |} |}
  else
    {| newMarkdown :=
         substring markdown 0 lineStart ++ prefix ++ line
           ++ substringFrom markdown lineEnd;
       newSelection :=
         {| start := start0 + len prefix; end_ := end0 + len prefix |} |}.

(** [insert(text, cursorOffset)] *)
Definition insert (text : jsstring) (cursorOffset : Z) : FormatResult :=
  let replacement :=
    substring markdown 0 start0 ++ text ++ substringFrom markdown end0 in
  {| newMarkdown := replacement;
     newSelection :=
       {| start := start0 + cursorOffset; end_ := start0 + cursorOffset |} |}.

(** The exit of the branches that [break]: lines 137-138. *)
Definition finish (e : Edit) : FormatResult :=
  {| newMarkdown :=
       substring markdown 0 start0 ++ newText e ++ substringFrom markdown end0;
     newSelection :=
       {| start := newSelectionStart e; end_ := newSelectionEnd e |} |}.

(** The [ol] branch. *)
Definition numberLines (lines : list jsstring) : list jsstring :=
  map (fun il : nat * jsstring =>
         numberToString (Z.of_nat (fst il) + 1) ++ lit ". " ++ snd il)
      (combine (seq 0 (length lines)) lines).

Definition orderedList : Edit :=
  let lines := split NL selection in
  let isNumbered := forallb (fun line => testNumbered (trim line)) lines in
  let text :=
    if isNumbered then join [NL] (map replaceNumbered lines)
    else join [NL] (numberLines lines) in
  {| newText := text;
     newSelectionStart := start0;
     newSelectionEnd := start0 + len text |}.

(** The [link] branch. *)
Definition linkEdit : Edit :=
  let text :=
    if truthy (url P)
    then lit "[" ++ orElse (Some selection) (lit "link text") ++ lit "]("
           ++ toString (url P) ++ lit ")"
    else selection in
  {| newText := text;
     newSelectionStart := start0 + len text;
     newSelectionEnd := start0 + len text |}.

(** The text of the [image] branch. *)
Definition imageText : jsstring :=
  if truthy (imgUrl P) then
    if truthy (width P)
    then lit "<img src=" ++ [DQ] ++ toString (imgUrl P) ++ [DQ]
           ++ lit " alt=" ++ [DQ] ++ toString (altText P) ++ [DQ]
           ++ lit " width=" ++ [DQ] ++ toString (width P) ++ [DQ] ++ lit ">"
    else lit "![" ++ toString (altText P) ++ lit "](" ++ toString (imgUrl P)
           ++ lit ")"
  else selection.

(** One row of a table: [`| ${Array(cols).fill(cell).join(' | ')} |`]. *)
Definition tableRow (cols : Z) (cell : jsstring) : outcome jsstring :=
  cells <- arrayFill cols cell ;;
  joined <- newString (join (lit " | ") cells) ;;
  newString (lit "| " ++ joined ++ lit " |").

(** The text of the [table] branch; [isNaN] is [None]. *)
Definition tableText : outcome jsstring :=
  let cols := promptCount (colsAnswer P) in
  let rows := promptCount (rowsAnswer P) in
  match cols, rows with
  | Some c, Some r =>
      if (c >? 0) && (r >? 0) then
        header <- tableRow c (lit "Header") ;;
        divider <- tableRow c (lit "---") ;;
        bodyLength <- arrayOfLength r ;;
        bodyRow <- tableRow c (lit "Cell") ;;
        body <- newString (join [NL] (repeat bodyRow bodyLength)) ;;
        newString ([NL] ++ header ++ [NL] ++ divider ++ [NL] ++ body ++ [NL])
      else Returns selection
  | _, _ => Returns selection
  end.

(** [applyFormat(format, markdown, start, end)]. The [default] branch of the
    [switch] is taken by no value of [FormatAction]. *)
Definition applyFormat (format : FormatAction) : outcome FormatResult :=
  match format with
  | bold => Returns (finish (wrap (lit "**")))
  | italic => Returns (finish (wrap (lit "*")))
  | strikethrough => Returns (finish (wrap (lit "~~")))
  | code => Returns (finish (wrap (lit "`")))
  | h1 => Returns (prefixLine (lit "# "))
  | h2 => Returns (prefixLine (lit "## "))
  | h3 => Returns (prefixLine (lit "### "))
  | h4 => Returns (prefixLine (lit "#### "))
  | h5 => Returns (prefixLine (lit "##### "))
  | h6 => Returns (prefixLine (lit "###### "))
  | ul => Returns (finish (applyLineFormatting (lit "- ")))
  | ol => Returns (finish orderedList)
  | link => Returns (finish linkEdit)
  | image => Returns (insert imageText (len imageText))
  | table => text <- tableText ;; Returns (insert text (len text))
  end.

End ApplyFormat.

(** No dialog is answered: every [prompt] is cancelled. *)
Definition cancelled : Prompts :=
  {| url := None; imgUrl := None; altText := None; width := None;
     colsAnswer := None; rowsAnswer := None |}.


(** The same answers with other answers to the two dialogs of a table. *)
Definition withCounts (P : Prompts) (c r : answer) : Prompts :=
  {| url := url P; imgUrl := imgUrl P; altText := altText P;
     width := width P; colsAnswer := c; rowsAnswer := r |}.

(** A selection of the document: [0 <= start <= end <= length]. *)
Definition validRange (doc : jsstring) (s e : Z) : Prop :=
  0 <= s /\ s <= e /\ e <= len doc.

(** The heading actions and their prefixes. *)
Definition headingPrefix (format : FormatAction) : option jsstring :=
  match format with
  | h1 => Some (lit "# ")
  | h2 => Some (lit "## ")
  | h3 => Some (lit "### ")
  | h4 => Some (lit "#### ")
  | h5 => Some (lit "##### ")
  | h6 => Some (lit "###### ")
  | _ => None
  end.

(** ** The shapes the specification names *)

(** The selection [s, e] of [text] wrapped in [token] on both sides, the new
    selection on the wrapped text. *)
Definition wrapShape (text : jsstring) (s e : Z) (token : jsstring)
  : FormatResult :=
  {| newMarkdown :=
       substring text 0 s ++ token ++ substring text s e ++ token
         ++ substringFrom text e;
     newSelection :=
       {| start := s + len token; end_ := s + len token + (e - s) |} |}.

(** The selection [s, e] of [doc] replaced by [block], the caret after it. *)
Definition blockShape (doc : jsstring) (s e : Z) (block : jsstring)
  : FormatResult :=
  {| newMarkdown := substring doc 0 s ++ block ++ substringFrom doc e;
     newSelection := {| start := s + len block; end_ := s + len block |} |}.

(** A row of a table written from its cells. *)
Definition rowOfCells (cells : list jsstring) : jsstring :=
  lit "| " ++ join (lit " | ") cells ++ lit " |".

(** The block of a table of [c] columns and [r] body rows: the header row,
    the divider row and the body rows, one per line, between two newlines. *)
Definition tableBlock (c r : nat) : jsstring :=
  [NL]
    ++ join [NL]
         (rowOfCells (repeat (lit "Header") c)
            :: rowOfCells (repeat (lit "---") c)
            :: repeat (rowOfCells (repeat (lit "Cell") c)) r)
    ++ [NL].

(** A count read from a dialog that passes the test
    [!isNaN(n) && n > 0] of the [table] branch. *)
Definition isPositive (n : option Z) : bool :=
  match n with
  | Some z => z >? 0
  | None => false
  end.

Definition positiveCounts (P : Prompts) : bool :=
  isPositive (promptCount (colsAnswer P))
  && isPositive (promptCount (rowsAnswer P)).

(** The first code unit of a string is a digit. *)
Definition startsWithDigit (s : jsstring) : bool :=
  match s with
  | c :: _ => isDigit c
  | [] => false
  end.

(** The answers of the [image] dialogs: a URL, no alt text, a width. *)
Definition imageAnswers (u : jsstring) (w : answer) : Prompts :=
  {| url := None; imgUrl := Some u; altText := None; width := w;
     colsAnswer := None; rowsAnswer := None |}.

(** The text before a line is empty or ends with a newline; the text after
    it is empty or starts with one. *)
Definition endsLine (pre : jsstring) : Prop :=
  pre = [] \/ exists p, pre = p ++ [NL].

Definition startsLine (post : jsstring) : Prop :=
  post = [] \/ exists q, post = NL :: q.

(** [doc] is [pre ++ line ++ post] where [line] is the line the offset [s]
    lies on. *)
Definition lineAt (doc : jsstring) (s : Z) (pre line post : jsstring) : Prop :=
  doc = pre ++ line ++ post
  /\ len pre <= s <= len pre + len line
  /\ ~ In NL line
  /\ endsLine pre
  /\ startsLine post.

(** The selection returned lies in the document returned. *)
Definition inBounds (r : FormatResult) : Prop :=
  0 <= start (newSelection r)
  /\ start (newSelection r) <= end_ (newSelection r)
  /\ end_ (newSelection r) <= len (newMarkdown r).

(** ** The status bar (src/components/StatusBar.tsx) *)

Module StatusBar.

(** The matches of [/\S+/g] on [s]: the maximal runs of code units that are
    no white space, from left to right. *)
Fixpoint nonSpaceRuns (s : jsstring) : list jsstring :=
  match s with
  | [] => []
  | c :: s' =>
      if isWhiteSpace c then nonSpaceRuns s'
      else match s' with
           | [] => [[c]]
           | c' :: _ =>
               if isWhiteSpace c' then [c] :: nonSpaceRuns s'
               else match nonSpaceRuns s' with
                    | r :: rs => (c :: r) :: rs
                    | [] => [[c]]
                    end
           end
  end.

(** [s.match(/\S+/g)]: the array of the matches, [null] when there is
    none. *)
Definition matchNonSpace (s : jsstring) : option (list jsstring) :=
  match nonSpaceRuns s with
  | [] => None
  | m => Some m
  end.

Record Counts : Type := { words : Z; characters : Z }.

(** The two numbers the status bar shows for [text]. *)
Definition counts (text : jsstring) : Counts :=
  let trimmedText := trim text in
  let wordMatch := matchNonSpace trimmedText in
  {| words :=
       match wordMatch with
       | Some m => Z.of_nat (length m)
       | None => 0
       end;
     characters := len trimmedText |}.

End StatusBar.

(** ** The editor pane (src/components/Editor.tsx) and the application
    state (src/App.tsx) *)

Module App.

(** [Selection] of src/types.ts: the selected text and its offsets. *)
Record Selection : Type := {
  text : jsstring;
  selStart : Z;
  selEnd : Z
}.

(** [handleSelect] of the editor on a textarea that holds [value] with the
    selection [selectionStart, selectionEnd]: what [onSelect] is called
    with, [None] for [null]. *)
Definition handleSelect (value : jsstring) (selectionStart selectionEnd : Z)
  : option Selection :=
  let text := substring value selectionStart selectionEnd in
  match text with
  | _ :: _ =>
      Some {| text := text; selStart := selectionStart;
              selEnd := selectionEnd |}
  | [] => None
  end.

Inductive AiAction : Type :=
| IMPROVE | SUMMARIZE_SELECTION | CHANGE_TONE
| SUMMARIZE_DOCUMENT | GENERATE_OUTLINE | SUGGEST_TITLES
| GENERATE_OUTLINE_FROM_PROMPT.

Inductive Tone : Type :=
| PROFESSIONAL | CASUAL | FRIENDLY | CONFIDENT | HUMOROUS.

Inductive ViewMode : Type := split | editor | preview.

Inductive Theme : Type := light | dark.

(** The optional second argument of [handleAiAction]. *)
Record Options : Type := { tone : option Tone; prompt : answer }.

Record ModalContent : Type := { title : jsstring; content : jsstring }.

(** The state of [App] the handlers below read and write. *)
Record State : Type := {
  markdown : jsstring;
  selection : option Selection;
  isLoading : bool;
  modalContent : option ModalContent
}.

(** How a call of the AI service ends: it resolves to a text, or it rejects
    with an [Error] that has a message, or with another value. *)
Inductive ServiceResult : Type :=
| Resolved (result : jsstring)
| Rejected (message : option jsstring).

(** [toggleTheme] and [cycleViewMode]: the functions given to the state
    setters. *)
Definition toggleTheme (prev : Theme) : Theme :=
  match prev with
  | light => dark
  | dark => light
  end.

Definition cycleViewMode (current : ViewMode) : ViewMode :=
  match current with
  | split => editor
  | editor => preview
  | preview => split
  end.

(** The [switch] of [handleAiAction]: it shows the error modal and returns,
    or returns, or goes on to call the service on [textToProcess]. *)
Inductive Prepared : Type :=
| ErrorModal
| Return
| Call (textToProcess : jsstring) (isSelectionAction : bool).

Definition prepare (st : State) (action : AiAction) (options : option Options)
  : Prepared :=
  match action with
  | IMPROVE | SUMMARIZE_SELECTION | CHANGE_TONE =>
      match selection st with
      | Some sel =>
          match text sel with
          | _ :: _ => Call (text sel) true
          | [] => ErrorModal
          end
      | None => ErrorModal
      end
  | SUMMARIZE_DOCUMENT | GENERATE_OUTLINE | SUGGEST_TITLES =>
      Call (markdown st) false
  | GENERATE_OUTLINE_FROM_PROMPT =>
      match options with
      | Some o =>
          if truthy (prompt o) then Call (toString (prompt o)) false
          else Return
      | None => Return
      end
  end.

(** The title of the result modal: the default, then the three [if]. *)
Definition resultTitle (action : AiAction) : jsstring :=
  let title := lit "AI Result" in
  let title :=
    match action with SUMMARIZE_DOCUMENT => lit "Document Summary" | _ => title end in
  let title :=
    match action with GENERATE_OUTLINE => lit "Generated Outline" | _ => title end in
  let title :=
    match action with SUGGEST_TITLES => lit "Suggested Titles" | _ => title end in
  title.

Section HandleAiAction.

(** [runAiAction] of the AI service, with how each call ends. *)
Variable runAiAction : AiAction -> jsstring -> option Options -> ServiceResult.

(** The state after [handleAiAction(action, options)] has run to its end on
    the state [st], no other event in between. The [finally] block clears
    [isLoading] on every path. *)
Definition handleAiAction (st : State) (action : AiAction)
    (options : option Options) : State :=
  match prepare st action options with
  | ErrorModal =>
      {| markdown := markdown st; selection := selection st;
         isLoading := false;
         modalContent :=
           Some {| title := lit "Error";
                   content := lit "Please select text to perform this action." |} |}
  | Return =>
      {| markdown := markdown st; selection := selection st;
         isLoading := false; modalContent := modalContent st |}
  | Call textToProcess isSelectionAction =>
      match runAiAction action textToProcess options with
      | Resolved result =>
          match isSelectionAction, selection st with
          | true, Some sel =>
              {| markdown :=
                   substring (markdown st) 0 (selStart sel) ++ result
                     ++ substringFrom (markdown st) (selEnd sel);
                 selection := selection st; isLoading := false;
                 modalContent := modalContent st |}
          | _, _ =>
              match action with
              | GENERATE_OUTLINE_FROM_PROMPT =>
                  {| markdown := trim (markdown st) ++ [NL; NL] ++ result;
                     selection := selection st; isLoading := false;
                     modalContent := modalContent st |}
              | _ =>
                  {| markdown := markdown st; selection := selection st;
                     isLoading := false;
                     modalContent :=
                       Some {| title := resultTitle action;
                               content := result |} |}
              end
          end
      | Rejected message =>
          {| markdown := markdown st; selection := selection st;
             isLoading := false;
             modalContent :=
               Some {| title := lit "Error";
                       content :=
                         match message with
                         | Some m => m
                         | None => lit "An unknown error occurred."
                         end |} |}
      end
  end.

End HandleAiAction.

(** The state after [handleFormat(format)] and its timer have run: the
    textarea, when there is one, has the selection [editor]; when the timer
    fires it holds the new document, and the selection kept is read from
    it. An exception of [applyFormat] leaves the handler. *)
Definition handleFormat (P : Prompts) (editor : option (Z * Z)) (st : State)
    (format : FormatAction) : outcome State :=
  match editor with
  | None => Returns st
  | Some (selectionStart, selectionEnd) =>
      r <- applyFormat P (markdown st) selectionStart selectionEnd format ;;
      Returns
        {| markdown := newMarkdown r;
           selection :=
             handleSelect (newMarkdown r)
               (start (newSelection r)) (end_ (newSelection r));
           isLoading := isLoading st;
           modalContent := modalContent st |}
  end.

End App.

(** ** The menu bar (src/components/Menubar.tsx) *)

Module Menubar.

(** [viewModeTitle()]; the [default] branch is for no value of
    [ViewMode]. *)
Definition viewModeTitle (viewMode : App.ViewMode) : jsstring :=
  match viewMode with
  | App.split => lit "Cycle to Editor View"
  | App.editor => lit "Cycle to Preview View"
  | App.preview => lit "Cycle to Split View"
  end.

End Menubar.

(** ** The chat window (src/components/AiFeatures.tsx) *)

Module ChatModal.

Inductive Sender : Type := user | bot.

Record ChatMessage : Type := { sender : Sender; text : jsstring }.

Record State : Type := {
  messages : list ChatMessage;
  input : jsstring;
  isLoading : bool
}.

Section HandleSend.

(** [sendMessageToChat] of the AI service, with how each call ends. *)
Variable sendMessageToChat : jsstring -> App.ServiceResult.

(** The state after [handleSend()] has run to its end on the state [st]. *)
Definition handleSend (st : State) : State :=
  match trim (input st) with
  | [] => st
  | _ :: _ =>
      let userMessage := {| sender := user; text := input st |} in
      let reply :=
        match sendMessageToChat (input st) with
        | App.Resolved botResponse =>
            {| sender := bot; text := botResponse |}
        | App.Rejected (Some m) => {| sender := bot; text := m |}
        | App.Rejected None =>
            {| sender := bot; text := lit "An unknown error occurred." |}
        end in
      {| messages := (messages st ++ [userMessage]) ++ [reply];
         input := [];
         isLoading := false |}
  end.

(** [setInput(value)]: what typing in the input field does. *)
Definition setInput (st : State) (value : jsstring) : State :=
  {| messages := messages st; input := value; isLoading := isLoading st |}.

(** The texts [typed] entered and sent one after the other; the field and
    the button are disabled while a call is under way, so each [handleSend]
    has run to its end before the next. *)
Definition conversation (st : State) (typed : list jsstring) : State :=
  fold_left (fun st value => handleSend (setInput st value)) typed st.

End HandleSend.

(** A transcript in turns: a message of the user, the reply of the bot, and
    so on. *)
Fixpoint inTurns (ms : list ChatMessage) : bool :=
  match ms with
  | [] => true
  | m :: ms' =>
      match sender m, ms' with
      | user, r :: rest =>
          match sender r with
          | bot => inTurns rest
          | user => false
          end
      | _, _ => false
      end
  end.

Definition fromUser (m : ChatMessage) : bool :=
  match sender m with
  | user => true
  | bot => false
  end.

(** An input [handleSend] sends: it does not trim to the empty string. *)
Definition sendable (value : jsstring) : bool :=
  match trim value with
  | [] => false
  | _ :: _ => true
  end.

End ChatModal.

(** ** Properties of the selection and of the lines *)

(** The text [applyLineFormatting(linePrefix)] writes for the selected text
    [sel]. *)
Definition lineFormattingText (linePrefix sel : jsstring) : jsstring :=
  let selectedLines := split NL sel in
  if forallb (fun line => startsWith (trim line) linePrefix) selectedLines
  then join [NL] (map (fun line => replace line linePrefix []) selectedLines)
  else join [NL]
         (map (fun line => if startsWith (trim line) linePrefix then line
                           else linePrefix ++ line) selectedLines).

(** The text the [ol] branch writes for the selected text [sel]. *)
Definition orderedListText (sel : jsstring) : jsstring :=
  let lines := split NL sel in
  if forallb (fun line => testNumbered (trim line)) lines
  then join [NL] (map replaceNumbered lines)
  else join [NL] (numberLines lines).

(** ** Lists and substrings *)

Lemma len_app (a b : jsstring) : len (a ++ b) = len a + len b.
Proof. unfold len. rewrite length_app. lia. Qed.

Lemma len_nonneg (a : jsstring) : 0 <= len a.
Proof. unfold len. lia. Qed.

Lemma substring_valid (s : jsstring) (a b : Z) :
  0 <= a -> a <= b -> b <= len s ->
  substring s a b = firstn (Z.to_nat (b - a)) (skipn (Z.to_nat a) s).
Proof.
  intros Ha Hab Hb. unfold substring.
  replace (Z.min (Z.max a 0) (len s)) with a by lia.
  replace (Z.min (Z.max b 0) (len s)) with b by lia.
  replace (Z.min a b) with a by lia.
  replace (Z.max a b) with b by lia.
  reflexivity.
Qed.

Lemma substring_head (s : jsstring) (a : Z) :
  0 <= a -> a <= len s -> substring s 0 a = firstn (Z.to_nat a) s.
Proof.
  intros Ha Hb. rewrite substring_valid by lia.
  rewrite Z.sub_0_r. reflexivity.
Qed.

Lemma substringFrom_valid (s : jsstring) (a : Z) :
  0 <= a -> a <= len s -> substringFrom s a = skipn (Z.to_nat a) s.
Proof.
  intros Ha Hb. unfold substringFrom. rewrite substring_valid by lia.
  apply firstn_all2. rewrite length_skipn. unfold len in *. lia.
Qed.

Lemma len_substring (s : jsstring) (a b : Z) :
  0 <= a -> a <= b -> b <= len s -> len (substring s a b) = b - a.
Proof.
  intros Ha Hab Hb. rewrite substring_valid by lia.
  unfold len in *. rewrite length_firstn, length_skipn. lia.
Qed.

Lemma len_substringFrom (s : jsstring) (a : Z) :
  0 <= a -> a <= len s -> len (substringFrom s a) = len s - a.
Proof. intros. unfold substringFrom. apply len_substring; lia. Qed.

(** A valid range cuts the document in three. *)
Lemma substring_split3 (s : jsstring) (a b : Z) :
  0 <= a -> a <= b -> b <= len s ->
  s = substring s 0 a ++ substring s a b ++ substringFrom s b.
Proof.
  intros Ha Hab Hb.
  rewrite substring_head, substring_valid, substringFrom_valid by lia.
  rewrite <- (firstn_skipn (Z.to_nat a) s) at 1. f_equal.
  rewrite <- (firstn_skipn (Z.to_nat (b - a)) (skipn (Z.to_nat a) s)) at 1.
  f_equal. rewrite skipn_skipn. f_equal. lia.
Qed.

(** Substrings of a document given as [pre ++ mid ++ post]. *)
Lemma substring_pre (pre rest : jsstring) :
  substring (pre ++ rest) 0 (len pre) = pre.
Proof.
  rewrite substring_head; [| apply len_nonneg | rewrite len_app; pose proof (len_nonneg rest); lia].
  unfold len. rewrite Nat2Z.id. rewrite firstn_app, Nat.sub_diag, firstn_all.
  simpl. apply app_nil_r.
Qed.

Lemma substringFrom_post (pre post : jsstring) :
  substringFrom (pre ++ post) (len pre) = post.
Proof.
  rewrite substringFrom_valid; [| apply len_nonneg | rewrite len_app; pose proof (len_nonneg post); lia].
  unfold len. rewrite Nat2Z.id. rewrite skipn_app, Nat.sub_diag, skipn_all.
  reflexivity.
Qed.

Lemma substring_mid (pre mid post : jsstring) :
  substring (pre ++ mid ++ post) (len pre) (len pre + len mid) = mid.
Proof.
  pose proof (len_nonneg pre). pose proof (len_nonneg mid).
  pose proof (len_nonneg post).
  rewrite substring_valid by (rewrite ?len_app; lia).
  replace (len pre + len mid - len pre) with (len mid) by lia.
  unfold len. rewrite !Nat2Z.id.
  rewrite skipn_app, Nat.sub_diag, skipn_all. simpl.
  rewrite firstn_app, Nat.sub_diag, firstn_all. simpl. apply app_nil_r.
Qed.

(** ** Inline wrap *)

Lemma finish_wrap (text : jsstring) (s e : Z) (token : jsstring) :
  0 <= s -> s <= e -> e <= len text ->
  finish text s e (wrap text s e token) = wrapShape text s e token.
Proof.
  intros Hs Hse He. unfold finish, wrap, wrapShape, selection.
  cbn [newText newSelectionStart newSelectionEnd].
  pose proof (len_substring text s e Hs Hse He) as Hl.
  rewrite <- !app_assoc.
  destruct (substring text s e) eqn:Hsel.
  - change (len []) with 0 in Hl. replace (e - s) with 0 by lia.
    rewrite Z.add_0_r. reflexivity.
  - rewrite Hl. reflexivity.
Qed.

(** C3. Inline-wrap shape: on a range [s, e] of [text], [bold] returns
    [text[0:s] + "**" + text[s:e] + "**" + text[e:]] with the new selection
    starting at [s + 2] and as long as the old one, and likewise [italic],
    [strikethrough] and [code] with their tokens; on an empty selection
    [bold] inserts the four asterisks and puts the caret at [s + 2]. *)
Theorem inline_wrap_shape (P : Prompts) (text : jsstring) (s e : Z) :
  validRange text s e ->
  applyFormat P text s e bold = Returns (wrapShape text s e (lit "**"))
  /\ applyFormat P text s e italic = Returns (wrapShape text s e (lit "*"))
  /\ applyFormat P text s e strikethrough
     = Returns (wrapShape text s e (lit "~~"))
  /\ applyFormat P text s e code = Returns (wrapShape text s e (lit "`"))
  /\ (s = e ->
      applyFormat P text s e bold
      = Returns {| newMarkdown :=
                     substring text 0 s ++ lit "****" ++ substringFrom text e;
                   newSelection := {| start := s + 2; end_ := s + 2 |} |}).
Proof.
  intros (Hs & Hse & He). unfold applyFormat.
  rewrite !finish_wrap by assumption.
  repeat split; try reflexivity.
  intros ->. unfold wrapShape. rewrite Z.sub_diag, Z.add_0_r.
  replace (substring text e e) with (@nil char16).
  - reflexivity.
  - symmetry. apply length_zero_iff_nil.
    pose proof (len_substring text e e Hs (Z.le_refl e) He) as Hl.
    unfold len in Hl. lia.
Qed.

Lemma inline_wrap_shape_witness :
  validRange (lit "hello world") 6 6
  /\ applyFormat cancelled (lit "hello world") 6 6 italic
     = Returns {| newMarkdown := lit "hello **world";
                  newSelection := {| start := 7; end_ := 7 |} |}
  /\ applyFormat cancelled (lit "hello world") 6 6 bold
     = Returns {| newMarkdown := lit "hello ****world";
                  newSelection := {| start := 8; end_ := 8 |} |}.
Proof.
  assert (V : validRange (lit "hello world") 6 6)
    by (unfold validRange; vm_compute; intuition discriminate).
  pose proof (inline_wrap_shape cancelled (lit "hello world") 6 6 V)
    as (_ & Hi & _ & _ & Hb).
  split; [exact V | split].
  - exact Hi.
  - exact (Hb eq_refl).
Defined.

(** ** Link, image and table *)

Lemma no_edit (doc : jsstring) (s e : Z) :
  validRange doc s e ->
  blockShape doc s e (substring doc s e)
  = {| newMarkdown := doc; newSelection := {| start := e; end_ := e |} |}.
Proof.
  intros (Hs & Hse & He). unfold blockShape.
  rewrite <- (substring_split3 doc s e Hs Hse He).
  rewrite len_substring by assumption.
  replace (s + (e - s)) with e by lia. reflexivity.
Qed.

Lemma truthy_some (u : jsstring) : u <> [] -> truthy (Some u) = true.
Proof. destruct u; [congruence | reflexivity]. Qed.

Lemma orElse_some (u d : jsstring) : u <> [] -> orElse (Some u) d = u.
Proof. destruct u; [congruence | reflexivity]. Qed.

Lemma join_cons (sep x : jsstring) (a : list jsstring) :
  a <> [] -> join sep (x :: a) = x ++ sep ++ join sep a.
Proof. destruct a; [congruence | reflexivity]. Qed.

Lemma newString_fits (t : jsstring) :
  len t <= maxStringLength -> newString t = Returns t.
Proof.
  intros H. unfold newString.
  replace (len t <=? maxStringLength) with true
    by (symmetry; apply Z.leb_le; exact H).
  reflexivity.
Qed.

Lemma newString_long (t : jsstring) :
  maxStringLength < len t -> newString t = RangeError.
Proof.
  intros H. unfold newString.
  replace (len t <=? maxStringLength) with false
    by (symmetry; apply Z.leb_gt; exact H).
  reflexivity.
Qed.

Lemma newString_cases (t : jsstring) :
  newString t = RangeError \/ newString t = Returns t.
Proof. unfold newString. destruct (len t <=? maxStringLength); auto. Qed.

Lemma len_join_member (sep x : jsstring) (a : list jsstring) :
  In x a -> len x <= len (join sep a).
Proof.
  induction a as [| y a IH]; intros H; [destruct H |].
  destruct a as [| z a].
  - destruct H as [-> | []]. cbn [join]. lia.
  - rewrite join_cons by discriminate. rewrite !len_app.
    pose proof (len_nonneg sep). pose proof (len_nonneg y).
    pose proof (len_nonneg (join sep (z :: a))).
    destruct H as [-> | H]; [lia |]. specialize (IH H). lia.
Qed.

Lemma len_join_repeat (sep x : jsstring) (n : nat) :
  len (join sep (repeat x (S n)))
  = (Z.of_nat n + 1) * len x + Z.of_nat n * len sep.
Proof.
  induction n as [| n IH]; [cbn [repeat join]; lia |].
  change (repeat x (S (S n))) with (x :: repeat x (S n)).
  rewrite join_cons by discriminate. rewrite !len_app, IH. lia.
Qed.

(** The length of a row of [c] cells and of the block of a table. *)
Lemma len_rowOfCells (cell : jsstring) (c : nat) :
  len (rowOfCells (repeat cell (S c)))
  = (Z.of_nat c + 1) * (len cell + 3) + 1.
Proof.
  unfold rowOfCells. rewrite !len_app, len_join_repeat.
  change (len (lit "| ")) with 2. change (len (lit " |")) with 2.
  change (len (lit " | ")) with 3. lia.
Qed.

Lemma len_tableBlock (c r : Z) :
  0 < c -> 0 < r ->
  len (tableBlock (Z.to_nat c) (Z.to_nat r)) = 7 * c * r + 15 * c + 2 * r + 5.
Proof.
  intros Hc Hr. unfold tableBlock.
  destruct (Z.to_nat c) as [| c'] eqn:Ec; [lia |].
  destruct (Z.to_nat r) as [| r'] eqn:Er; [lia |].
  rewrite join_cons by discriminate. rewrite join_cons by discriminate.
  rewrite !len_app, len_join_repeat, !len_rowOfCells.
  change (len [NL]) with 1. change (len (lit "Header")) with 6.
  change (len (lit "---")) with 3. change (len (lit "Cell")) with 4.
  replace (Z.of_nat c') with (c - 1) by lia.
  replace (Z.of_nat r') with (r - 1) by lia. ring.
Qed.

Lemma tableRow_returns (c : Z) (cell : jsstring) :
  0 < c -> c < 2 ^ 32 ->
  len (rowOfCells (repeat cell (Z.to_nat c))) <= maxStringLength ->
  tableRow c cell = Returns (rowOfCells (repeat cell (Z.to_nat c))).
Proof.
  intros H0 H1 Hl. unfold tableRow, arrayFill, arrayOfLength.
  replace (0 <=? c) with true by (symmetry; apply Z.leb_le; lia).
  replace (c <? 2 ^ 32) with true by (symmetry; apply Z.ltb_lt; lia).
  cbn [andb bind]. rewrite newString_fits.
  - cbn [bind]. apply newString_fits. exact Hl.
  - unfold rowOfCells in Hl. rewrite !len_app in Hl.
    pose proof (len_nonneg (lit "| ")). pose proof (len_nonneg (lit " |")). lia.
Qed.

Lemma tableRow_cases (c : Z) (cell : jsstring) :
  0 < c -> c < 2 ^ 32 ->
  tableRow c cell = RangeError
  \/ tableRow c cell = Returns (rowOfCells (repeat cell (Z.to_nat c))).
Proof.
  intros H0 H1. unfold tableRow, arrayFill, arrayOfLength.
  replace (0 <=? c) with true by (symmetry; apply Z.leb_le; lia).
  replace (c <? 2 ^ 32) with true by (symmetry; apply Z.ltb_lt; lia).
  cbn [andb bind].
  destruct (newString_cases (join (lit " | ") (repeat cell (Z.to_nat c))))
    as [-> | ->]; [left; reflexivity |].
  cbn [bind]. apply newString_cases.
Qed.

(** The [table] branch on counts the test accepts, when the block is a
    string the engine makes. *)
Lemma table_returns (P : Prompts) (doc : jsstring) (s e c r : Z) :
  promptCount (colsAnswer P) = Some c ->
  promptCount (rowsAnswer P) = Some r ->
  0 < c -> 0 < r ->
  len (tableBlock (Z.to_nat c) (Z.to_nat r)) <= maxStringLength ->
  applyFormat P doc s e table
  = Returns (blockShape doc s e (tableBlock (Z.to_nat c) (Z.to_nat r))).
Proof.
  intros Hc Hr Hc0 Hr0 Hl.
  pose proof Hl as Hf. rewrite len_tableBlock in Hf by assumption.
  assert (Hcr : 0 <= c * r) by (apply Z.mul_nonneg_nonneg; lia).
  assert (Hc1 : c < 2 ^ 32) by (unfold maxStringLength in Hf; lia).
  assert (Hr1 : r < 2 ^ 32) by (unfold maxStringLength in Hf; lia).
  assert (Hrows : Z.to_nat r <> 0%nat) by lia.
  unfold tableBlock in Hl.
  rewrite join_cons in Hl by discriminate.
  rewrite join_cons in Hl by (destruct (Z.to_nat r); [congruence | discriminate]).
  rewrite !len_app in Hl.
  set (header := rowOfCells (repeat (lit "Header") (Z.to_nat c))) in *.
  set (divider := rowOfCells (repeat (lit "---") (Z.to_nat c))) in *.
  set (row := rowOfCells (repeat (lit "Cell") (Z.to_nat c))) in *.
  set (body := join [NL] (repeat row (Z.to_nat r))) in *.
  pose proof (len_nonneg header). pose proof (len_nonneg divider).
  pose proof (len_nonneg body). pose proof (len_nonneg [NL]).
  assert (Hrow : len row <= len body).
  { apply len_join_member. destruct (Z.to_nat r); [congruence | left; reflexivity]. }
  unfold applyFormat, tableText. rewrite Hc, Hr.
  replace (c >? 0) with true by (symmetry; apply Z.gtb_lt; lia).
  replace (r >? 0) with true by (symmetry; apply Z.gtb_lt; lia).
  cbn [andb].
  rewrite !tableRow_returns by (try assumption; fold header divider row; lia).
  fold header divider row.
  unfold arrayOfLength.
  replace (0 <=? r) with true by (symmetry; apply Z.leb_le; lia).
  replace (r <? 2 ^ 32) with true by (symmetry; apply Z.ltb_lt; lia).
  cbn [andb bind]. fold body.
  rewrite (newString_fits body) by lia. cbn [bind].
  rewrite newString_fits by (rewrite !len_app; lia). cbn [bind].
  unfold tableBlock. fold header divider row.
  rewrite join_cons by discriminate.
  rewrite join_cons by (destruct (Z.to_nat r); [congruence | discriminate]).
  fold body. rewrite <- !app_assoc. reflexivity.
Qed.

(** The [table] branch on counts the test accepts, when [Array] refuses one
    of them or the block is longer than a string can be. *)
Lemma table_raises (P : Prompts) (doc : jsstring) (s e c r : Z) :
  promptCount (colsAnswer P) = Some c ->
  promptCount (rowsAnswer P) = Some r ->
  0 < c -> 0 < r ->
  2 ^ 32 <= c \/ 2 ^ 32 <= r
  \/ maxStringLength < 7 * c * r + 15 * c + 2 * r + 5 ->
  applyFormat P doc s e table = RangeError.
Proof.
  intros Hc Hr Hc0 Hr0 Hbig.
  unfold applyFormat, tableText. rewrite Hc, Hr.
  replace (c >? 0) with true by (symmetry; apply Z.gtb_lt; lia).
  replace (r >? 0) with true by (symmetry; apply Z.gtb_lt; lia).
  cbn [andb].
  destruct (Z.lt_ge_cases c (2 ^ 32)) as [Bc | Bc].
  2:{ unfold tableRow, arrayFill, arrayOfLength.
      replace (c <? 2 ^ 32) with false by (symmetry; apply Z.ltb_ge; lia).
      rewrite andb_false_r. reflexivity. }
  destruct (tableRow_cases c (lit "Header") Hc0 Bc) as [-> | ->];
    [reflexivity |].
  destruct (tableRow_cases c (lit "---") Hc0 Bc) as [-> | ->];
    [reflexivity |].
  cbn [bind]. unfold arrayOfLength.
  destruct (Z.lt_ge_cases r (2 ^ 32)) as [Br | Br].
  2:{ replace (r <? 2 ^ 32) with false by (symmetry; apply Z.ltb_ge; lia).
      rewrite andb_false_r. reflexivity. }
  replace (0 <=? r) with true by (symmetry; apply Z.leb_le; lia).
  replace (r <? 2 ^ 32) with true by (symmetry; apply Z.ltb_lt; lia).
  cbn [andb bind].
  destruct (tableRow_cases c (lit "Cell") Hc0 Bc) as [-> | ->];
    [reflexivity |].
  cbn [bind].
  destruct (newString_cases
              (join [NL]
                 (repeat (rowOfCells (repeat (lit "Cell") (Z.to_nat c)))
                    (Z.to_nat r)))) as [-> | ->]; [reflexivity |].
  cbn [bind].
  assert (Hrows : Z.to_nat r <> 0%nat) by lia.
  assert (E : [NL] ++ rowOfCells (repeat (lit "Header") (Z.to_nat c))
                ++ [NL] ++ rowOfCells (repeat (lit "---") (Z.to_nat c))
                ++ [NL]
                ++ join [NL]
                     (repeat (rowOfCells (repeat (lit "Cell") (Z.to_nat c)))
                        (Z.to_nat r))
                ++ [NL]
              = tableBlock (Z.to_nat c) (Z.to_nat r)).
  { unfold tableBlock. rewrite join_cons by discriminate.
    rewrite join_cons by (destruct (Z.to_nat r); [congruence | discriminate]).
    rewrite <- !app_assoc. reflexivity. }
  rewrite E. rewrite newString_long; [reflexivity |].
  rewrite len_tableBlock by assumption.
  destruct Hbig as [Hbig | [Hbig | Hbig]]; lia.
Qed.

(** The [table] branch on counts the test refuses. *)
Lemma table_refused (P : Prompts) (doc : jsstring) (s e : Z) :
  positiveCounts P = false ->
  applyFormat P doc s e table
  = Returns (blockShape doc s e (substring doc s e)).
Proof.
  unfold positiveCounts, isPositive, applyFormat, tableText. intros H.
  destruct (promptCount (colsAnswer P)) as [c |];
    destruct (promptCount (rowsAnswer P)) as [r |];
    try reflexivity.
  rewrite H. reflexivity.
Qed.

(** C4, as amended. When the link URL or the image URL is cancelled or empty,
    or when a table count, read by [parseInt] from the answer (from the
    default 2 when the answer is cancelled or empty), is NaN or not
    positive, the document is returned unchanged and the selection is
    collapsed to the end of the original selection. *)
Theorem declined_input_noop (P : Prompts) (doc : jsstring) (s e : Z) :
  validRange doc s e ->
  let unchanged :=
    Returns {| newMarkdown := doc;
               newSelection := {| start := e; end_ := e |} |} in
  (truthy (url P) = false -> applyFormat P doc s e link = unchanged)
  /\ (truthy (imgUrl P) = false -> applyFormat P doc s e image = unchanged)
  /\ (positiveCounts P = false -> applyFormat P doc s e table = unchanged).
Proof.
  intros V unchanged. subst unchanged. rewrite <- (no_edit doc s e V).
  repeat split; intros H.
  - unfold applyFormat, finish, linkEdit, blockShape.
    rewrite H. reflexivity.
  - unfold applyFormat, imageText. rewrite H. reflexivity.
  - apply table_refused. exact H.
Qed.

Lemma declined_input_noop_witness :
  validRange (lit "abc") 1 2
  /\ applyFormat cancelled (lit "abc") 1 2 link
     = Returns {| newMarkdown := lit "abc";
                  newSelection := {| start := 2; end_ := 2 |} |}
  /\ applyFormat cancelled (lit "abc") 1 2 image
     = Returns {| newMarkdown := lit "abc";
                  newSelection := {| start := 2; end_ := 2 |} |}
  /\ applyFormat (withCounts cancelled (Some (lit "0")) (Some (lit "x")))
       (lit "abc") 1 2 table
     = Returns {| newMarkdown := lit "abc";
                  newSelection := {| start := 2; end_ := 2 |} |}.
Proof.
  assert (V : validRange (lit "abc") 1 2)
    by (unfold validRange; vm_compute; intuition discriminate).
  split; [exact V |].
  split; [| split].
  - apply (declined_input_noop cancelled (lit "abc") 1 2 V). reflexivity.
  - apply (declined_input_noop cancelled (lit "abc") 1 2 V). reflexivity.
  - apply (declined_input_noop
             (withCounts cancelled (Some (lit "0")) (Some (lit "x")))
             (lit "abc") 1 2 V).
    reflexivity.
Defined.

(** C4 as stated fails: with both dialogs of a table cancelled the counts
    default to 2 and a table is inserted; and a declined image leaves the
    document unchanged but collapses a selection that was not empty. *)
Lemma declined_input_counterexample :
  (exists r, applyFormat cancelled [] 0 0 table = Returns r
             /\ newMarkdown r = tableBlock 2 2
             /\ newMarkdown r <> [])
  /\ applyFormat cancelled (lit "abc") 0 3 image
     = Returns {| newMarkdown := lit "abc";
                  newSelection := {| start := 3; end_ := 3 |} |}.
Proof.
  split.
  - eexists. split; [reflexivity |]. split; [reflexivity | discriminate].
  - reflexivity.
Qed.

(** ** [parseInt] *)

Lemma isDigit_cases (c : char16) :
  isDigit c = true ->
  isWhiteSpace c = false /\ N.eqb c 45 = false /\ N.eqb c 43 = false
  /\ 0 <= Z.of_N c - 48 <= 9.
Proof.
  unfold isDigit. intros H. apply andb_true_iff in H as (H1 & H2).
  apply N.leb_le in H1, H2.
  assert (E : (c = 48 \/ c = 49 \/ c = 50 \/ c = 51 \/ c = 52 \/ c = 53
               \/ c = 54 \/ c = 55 \/ c = 56 \/ c = 57)%N) by lia.
  repeat (destruct E as [-> | E]; [repeat split; (reflexivity || lia) |]).
  subst c. repeat split; (reflexivity || lia).
Qed.

Lemma spanDigits_app (d rest : jsstring) :
  forallb isDigit d = true -> startsWithDigit rest = false ->
  spanDigits (d ++ rest) = (d, rest).
Proof.
  intros Hd Hr. induction d as [| c d IH]; cbn [app spanDigits].
  - destruct rest as [| c rest]; [reflexivity |].
    cbn [startsWithDigit] in Hr. cbn [spanDigits]. rewrite Hr. reflexivity.
  - cbn [forallb] in Hd. apply andb_true_iff in Hd as (Hc & Hd).
    rewrite Hc, (IH Hd). reflexivity.
Qed.

(** [parseInt] reads the longest leading run of digits and ignores what
    follows it. *)
Lemma parseInt_leading_digits (d rest : jsstring) :
  d <> [] -> forallb isDigit d = true -> startsWithDigit rest = false ->
  parseInt (d ++ rest) = Some (digitsValue d).
Proof.
  intros Hne Hd Hr. unfold parseInt.
  destruct d as [| c d]; [congruence |].
  pose proof Hd as Hd'. cbn [forallb] in Hd'.
  apply andb_true_iff in Hd' as (Hc & _).
  destruct (isDigit_cases c Hc) as (Hws & Hm & Hp & _).
  cbn [app trimStart]. rewrite Hws, Hm, Hp.
  change (c :: d ++ rest) with ((c :: d) ++ rest).
  rewrite (spanDigits_app (c :: d) rest Hd Hr). cbn [fst].
  destruct (digitsValue (c :: d)); reflexivity.
Qed.

Lemma parseInt_nil : parseInt [] = None.
Proof. reflexivity. Qed.

Lemma promptCount_parseInt (cs : jsstring) (c : Z) :
  parseInt cs = Some c -> promptCount (Some cs) = Some c.
Proof.
  intros H. unfold promptCount. rewrite orElse_some; [exact H |].
  intros ->. discriminate.
Qed.

(** The digits of a decimal numeral and their value. *)
Lemma uintCodes_digits (u : Decimal.uint) : forallb isDigit (uintCodes u) = true.
Proof. induction u; simpl; auto. Qed.

Lemma digits_acc (u : Decimal.uint) (acc : positive) :
  fold_left (fun a c => 10 * a + (Z.of_N c - 48)) (uintCodes u) (Zpos acc)
  = Zpos (Pos.of_uint_acc u acc).
Proof.
  revert acc.
  induction u; intros acc; cbn [uintCodes fold_left Pos.of_uint_acc];
    [reflexivity | ..];
    rewrite <- IHu; f_equal; cbn [Z.of_N]; lia.
Qed.

Lemma digitsValue_uint (u : Decimal.uint) :
  digitsValue (uintCodes u) = Z.of_N (Pos.of_uint u).
Proof.
  unfold digitsValue.
  induction u; cbn [uintCodes fold_left Pos.of_uint Z.of_N];
    [reflexivity | exact IHu | ..];
    rewrite <- digits_acc; f_equal.
Qed.





(** C9. For [image] with a URL given and the alt-text dialog cancelled, the
    alt value written is the text null: in the [img] tag when a width is
    given, in the Markdown image otherwise. *)
Theorem image_alt_null (P : Prompts) (doc : jsstring) (s e : Z) (u : jsstring) :
  imgUrl P = Some u -> u <> [] -> altText P = None ->
  (forall w, width P = Some w -> w <> [] ->
     applyFormat P doc s e image
     = Returns
         (blockShape doc s e
            (lit "<img src=" ++ [DQ] ++ u ++ [DQ]
               ++ lit " alt=" ++ [DQ] ++ lit "null" ++ [DQ]
               ++ lit " width=" ++ [DQ] ++ w ++ [DQ] ++ lit ">")))
  /\ (truthy (width P) = false ->
      applyFormat P doc s e image
      = Returns (blockShape doc s e (lit "![null](" ++ u ++ lit ")"))).
Proof.
  intros Hu Hne Ha. split.
  - intros w Hw Hwne. unfold applyFormat, imageText, insert, blockShape.
    rewrite Hu, Ha, Hw, !truthy_some by assumption. reflexivity.
  - intros Hw. unfold applyFormat, imageText, insert, blockShape.
    rewrite Hu, Ha, Hw, truthy_some by assumption. reflexivity.
Qed.

Lemma image_alt_null_witness :
  applyFormat (imageAnswers (lit "a.png") (Some (lit "50%"))) (lit "xy") 1 1 image
  = Returns
      {| newMarkdown :=
           lit "x<img src=" ++ [DQ] ++ lit "a.png" ++ [DQ]
             ++ lit " alt=" ++ [DQ] ++ lit "null" ++ [DQ]
             ++ lit " width=" ++ [DQ] ++ lit "50%" ++ [DQ] ++ lit ">y";
         newSelection := {| start := 41; end_ := 41 |} |}
  /\ applyFormat (imageAnswers (lit "a.png") None) (lit "xy") 1 1 image
     = Returns {| newMarkdown := lit "x![null](a.png)y";
                  newSelection := {| start := 15; end_ := 15 |} |}.
Proof.
  split.
  - refine (proj1 (image_alt_null
                     (imageAnswers (lit "a.png") (Some (lit "50%")))
                     (lit "xy") 1 1 (lit "a.png") eq_refl _ eq_refl)
                  (lit "50%") eq_refl _); discriminate.
  - refine (proj2 (image_alt_null
                     (imageAnswers (lit "a.png") None)
                     (lit "xy") 1 1 (lit "a.png") eq_refl _ eq_refl)
                  eq_refl); discriminate.
Defined.

(** C10. The counts of a table are read by [parseInt]: the longest leading
    run of digits is the count and what follows it is ignored, so 3.7 gives
    three columns and 2px two, where a refused input would have left the
    document unchanged; and a cancelled dialog counts as the answer 2. *)
Theorem table_counts_parseInt (P : Prompts) (doc : jsstring) (s e : Z)
    (d rest : jsstring) :
  d <> [] -> forallb isDigit d = true -> startsWithDigit rest = false ->
  promptCount (Some (d ++ rest)) = Some (digitsValue d)
  /\ applyFormat (withCounts P (Some (lit "3.7")) (Some (lit "1"))) doc s e table
     = Returns (blockShape doc s e (tableBlock 3 1))
  /\ applyFormat (withCounts P (Some (lit "2px")) (Some (lit "1"))) doc s e table
     = Returns (blockShape doc s e (tableBlock 2 1))
  /\ promptCount None = Some 2
  /\ applyFormat (withCounts P None None) doc s e table
     = Returns (blockShape doc s e (tableBlock 2 2))
  /\ (forall a,
        applyFormat (withCounts P None a) doc s e table
        = applyFormat (withCounts P (Some (lit "2")) a) doc s e table)
  /\ (forall a,
        applyFormat (withCounts P a None) doc s e table
        = applyFormat (withCounts P a (Some (lit "2"))) doc s e table).
Proof.
  intros Hne Hd Hr. split; [| split; [| split; [| split; [| split; [| split]]]]].
  - apply promptCount_parseInt. apply parseInt_leading_digits; assumption.
  - apply (table_returns _ doc s e 3 1);
      (reflexivity || (vm_compute; discriminate)).
  - apply (table_returns _ doc s e 2 1);
      (reflexivity || (vm_compute; discriminate)).
  - reflexivity.
  - apply (table_returns _ doc s e 2 2);
      (reflexivity || (vm_compute; discriminate)).
  - intros a. reflexivity.
  - intros a. reflexivity.
Qed.

Lemma table_counts_parseInt_witness :
  promptCount (Some (lit "12 columns")) = Some 12
  /\ applyFormat (withCounts cancelled (Some (lit "3.7")) (Some (lit "1")))
       [] 0 0 table
     = Returns
         {| newMarkdown :=
              [NL] ++ lit "| Header | Header | Header |"
                ++ [NL] ++ lit "| --- | --- | --- |"
                ++ [NL] ++ lit "| Cell | Cell | Cell |" ++ [NL];
            newSelection := {| start := 73; end_ := 73 |} |}.
Proof.
  pose proof (table_counts_parseInt cancelled [] 0 0 (lit "12") (lit " columns"))
    as H.
  destruct H as (H1 & H2 & _); [discriminate | reflexivity | reflexivity |].
  split; [exact H1 | exact H2].
Defined.

(** ** [startsWith], [replace] and [trim] *)

Lemma startsWith_iff (s p : jsstring) :
  startsWith s p = true <-> exists r, s = p ++ r.
Proof.
  revert s. induction p as [| a p IH]; intros s.
  - destruct s; simpl; split; eauto.
  - destruct s as [| b s]; simpl.
    + split; [discriminate | intros (r & H); discriminate].
    + rewrite andb_true_iff, N.eqb_eq, IH. split.
      * intros (-> & r & ->). eauto.
      * intros (r & H). injection H as -> ->. eauto.
Qed.

Lemma startsWith_self_app (p r : jsstring) : startsWith (p ++ r) p = true.
Proof. apply startsWith_iff. eauto. Qed.

Lemma startsWith_app (s t p : jsstring) :
  startsWith s p = true -> startsWith (s ++ t) p = true.
Proof.
  rewrite !startsWith_iff. intros (r & ->).
  exists (r ++ t). apply eq_sym, app_assoc.
Qed.

Lemma replace_self_app (p r : jsstring) : replace (p ++ r) p [] = r.
Proof.
  destruct p as [| a p].
  - destruct r; reflexivity.
  - cbn [app replace]. change (a :: p ++ r) with ((a :: p) ++ r).
    rewrite startsWith_self_app.
    rewrite skipn_app, Nat.sub_diag, skipn_all. reflexivity.
Qed.

(** White space before the pattern is no occurrence of a pattern that starts
    with a code unit that is no white space. *)
Lemma replace_after_indent (w r p : jsstring) (a : char16) :
  isWhiteSpace a = false -> forallb isWhiteSpace w = true ->
  replace (w ++ (a :: p) ++ r) (a :: p) [] = w ++ r.
Proof.
  intros Ha. induction w as [| c w IH]; intros Hw.
  - exact (replace_self_app (a :: p) r).
  - cbn [forallb] in Hw. apply andb_true_iff in Hw as (Hc & Hw).
    cbn [app replace startsWith].
    replace (N.eqb a c) with false.
    + cbn [andb]. f_equal. apply IH. exact Hw.
    + symmetry. apply N.eqb_neq. intros ->. congruence.
Qed.

Lemma trimStart_decomp (l : jsstring) :
  exists w, l = w ++ trimStart l /\ forallb isWhiteSpace w = true.
Proof.
  induction l as [| c l (w & E & Hw)].
  - exists []. split; reflexivity.
  - cbn [trimStart]. destruct (isWhiteSpace c) eqn:Hc.
    + exists (c :: w). split.
      * cbn [app]. f_equal. exact E.
      * cbn [forallb]. rewrite Hc, Hw. reflexivity.
    + exists []. split; reflexivity.
Qed.

Lemma trimStart_nil (l : jsstring) :
  trimStart l = [] <-> forallb isWhiteSpace l = true.
Proof.
  induction l as [| c l IH]; cbn [trimStart forallb].
  - split; reflexivity.
  - destruct (isWhiteSpace c); cbn [andb].
    + exact IH.
    + split; discriminate.
Qed.

Lemma trimStart_app (x y : jsstring) :
  trimStart x <> [] -> trimStart (x ++ y) = trimStart x ++ y.
Proof.
  induction x as [| c x IH]; cbn [trimStart app]; [congruence |].
  destruct (isWhiteSpace c); [exact IH | reflexivity].
Qed.

Lemma trimEnd_decomp (l : jsstring) :
  exists w, l = trimEnd l ++ w /\ forallb isWhiteSpace w = true.
Proof.
  unfold trimEnd. destruct (trimStart_decomp (rev l)) as (w & E & Hw).
  exists (rev w). split.
  - rewrite <- rev_app_distr, <- E, rev_involutive. reflexivity.
  - apply forallb_forall. intros c Hc. apply in_rev in Hc.
    rewrite forallb_forall in Hw. auto.
Qed.

Lemma forallb_rev_white (l : jsstring) :
  forallb isWhiteSpace (rev l) = forallb isWhiteSpace l.
Proof.
  apply eq_true_iff_eq. rewrite !forallb_forall. split; intros H c Hc.
  - apply H. apply in_rev in Hc. exact Hc.
  - apply H. apply in_rev. exact Hc.
Qed.

(** A text that is only white space trims to nothing, and only such a text. *)
Lemma trim_nil (l : jsstring) :
  trim l = [] <-> forallb isWhiteSpace l = true.
Proof.
  unfold trim, trimEnd. split.
  - intros H. apply (f_equal (@rev char16)) in H.
    rewrite rev_involutive in H. cbn [rev] in H.
    apply trimStart_nil in H. rewrite forallb_rev_white in H.
    destruct (trimStart_decomp l) as (w & E & Hw).
    rewrite E, forallb_app, Hw, H. reflexivity.
  - intros H. apply trimStart_nil in H. rewrite H. reflexivity.
Qed.

Lemma trimEnd_app (x y : jsstring) :
  forallb isWhiteSpace y = false -> trimEnd (x ++ y) = x ++ trimEnd y.
Proof.
  intros H. unfold trimEnd. rewrite rev_app_distr, trimStart_app.
  - rewrite rev_app_distr, rev_involutive. reflexivity.
  - intros E. apply trimStart_nil in E. rewrite forallb_rev_white in E.
    congruence.
Qed.

(** What the trimmed text starts with, the text starts with after its
    leading white space. *)
Lemma startsWith_trim (l p : jsstring) :
  startsWith (trim l) p = true -> startsWith (trimStart l) p = true.
Proof.
  unfold trim. intros H.
  destruct (trimEnd_decomp (trimStart l)) as (w & E & _).
  rewrite E. apply startsWith_app. exact H.
Qed.

(** A line whose trimmed text starts with the pattern is white space, the
    pattern and a rest; [replace] removes that occurrence. *)
Lemma replace_trimmed_prefix (l p : jsstring) (a : char16) :
  isWhiteSpace a = false ->
  startsWith (trim l) (a :: p) = true ->
  exists indent rest,
    l = indent ++ (a :: p) ++ rest
    /\ forallb isWhiteSpace indent = true
    /\ replace l (a :: p) [] = indent ++ rest.
Proof.
  intros Ha H. apply startsWith_trim in H.
  apply startsWith_iff in H as (rest & E).
  destruct (trimStart_decomp l) as (w & El & Hw).
  exists w, rest. rewrite E in El. split; [exact El |].
  split; [exact Hw |].
  rewrite El at 1. apply replace_after_indent; assumption.
Qed.

(** A prefix that starts with a code unit that is no white space is still
    there after trimming when a text that is not only white space follows. *)
Lemma startsWith_trim_prefixed (l p : jsstring) (a : char16) :
  isWhiteSpace a = false -> trim l <> [] ->
  startsWith (trim ((a :: p) ++ l)) (a :: p) = true.
Proof.
  intros Ha Hl. unfold trim at 1. cbn [app trimStart]. rewrite Ha.
  change (a :: p ++ l) with ((a :: p) ++ l).
  rewrite trimEnd_app.
  - apply startsWith_self_app.
  - destruct (forallb isWhiteSpace l) eqn:E; [| reflexivity].
    apply trim_nil in E. congruence.
Qed.

(** ** The line of the caret *)

Lemma startsWith_skipn (s : jsstring) (k : nat) (c : char16) :
  startsWith (skipn k s) [c]
  = match nth_error s k with Some x => N.eqb c x | None => false end.
Proof.
  revert k. induction s as [| x s IH]; intros [| k];
    cbn [skipn nth_error startsWith].
  - reflexivity.
  - reflexivity.
  - apply andb_true_r.
  - apply IH.
Qed.

Lemma match_at (s : jsstring) (k : nat) (c : char16) :
  nth_error s k = Some c -> startsWith (skipn k s) [c] = true.
Proof. intros H. rewrite startsWith_skipn, H. apply N.eqb_refl. Qed.

Lemma no_match_at (s : jsstring) (k : nat) (c : char16) :
  nth_error s k <> Some c -> startsWith (skipn k s) [c] = false.
Proof.
  intros H. rewrite startsWith_skipn. destruct (nth_error s k) as [x |].
  - apply N.eqb_neq. congruence.
  - reflexivity.
Qed.

Lemma lastIndexUpTo_none (s : jsstring) (c : char16) (k : nat) :
  (forall i, (i <= k)%nat -> nth_error s i <> Some c) ->
  lastIndexUpTo s [c] k = -1.
Proof.
  induction k as [| k IH]; intros H; cbn [lastIndexUpTo];
    rewrite no_match_at by (apply H; lia).
  - reflexivity.
  - apply IH. intros i Hi. apply H. lia.
Qed.

Lemma lastIndexUpTo_found (s : jsstring) (c : char16) (m k : nat) :
  (m <= k)%nat -> nth_error s m = Some c ->
  (forall i, (m < i <= k)%nat -> nth_error s i <> Some c) ->
  lastIndexUpTo s [c] k = Z.of_nat m.
Proof.
  induction k as [| k IH]; intros Hm Hc Hno.
  - assert (m = 0%nat) as -> by lia. cbn [lastIndexUpTo].
    rewrite match_at by assumption. reflexivity.
  - destruct (Nat.eq_dec m (S k)) as [-> | Hne].
    + cbn [lastIndexUpTo]. rewrite match_at by assumption. reflexivity.
    + cbn [lastIndexUpTo]. rewrite no_match_at by (apply Hno; lia).
      apply IH; [lia | assumption |]. intros i Hi. apply Hno. lia.
Qed.

Lemma indexFrom_line (a post : jsstring) (base : Z) :
  ~ In NL a -> startsLine post ->
  indexFrom [NL] (a ++ post) base
  = match post with [] => -1 | _ :: _ => base + len a end.
Proof.
  intros Ha Hp. revert base. induction a as [| c a IH]; intros base.
  - destruct Hp as [-> | (q & ->)]; cbn.
    + reflexivity.
    + unfold len. cbn. lia.
  - cbn [app indexFrom startsWith].
    replace (N.eqb NL c) with false.
    + cbn [andb]. rewrite IH.
      * destruct post; [reflexivity |]. unfold len. cbn [length]. lia.
      * intros H. apply Ha. right. exact H.
    + symmetry. apply N.eqb_neq. intros E. apply Ha. left. auto.
Qed.

(** A text is a run without newline followed by nothing or by a newline. *)
Lemma first_line (l : jsstring) :
  exists a b, l = a ++ b /\ ~ In NL a /\ startsLine b.
Proof.
  induction l as [| c l (a & b & E & Ha & Hb)].
  - exists [], []. repeat split; [intros [] | left; reflexivity].
  - destruct (N.eq_dec c NL) as [-> | Hc].
    + exists [], (NL :: l). repeat split; [intros [] | right; eauto].
    + exists (c :: a), b. repeat split.
      * cbn [app]. f_equal. exact E.
      * intros [H | H]; [congruence | auto].
      * exact Hb.
Qed.

(** Every offset of a document lies on a line. *)
Lemma lineAt_exists (doc : jsstring) (s : Z) :
  0 <= s -> s <= len doc -> exists pre line post, lineAt doc s pre line post.
Proof.
  intros H0 H1.
  destruct (first_line (skipn (Z.to_nat s) doc)) as (l2 & post & E2 & N2 & Hpost).
  destruct (first_line (rev (firstn (Z.to_nat s) doc))) as (a & b & E1 & N1 & Hb).
  apply (f_equal (@rev char16)) in E1.
  rewrite rev_involutive, rev_app_distr in E1.
  assert (Hlen : len (rev b) + len (rev a) = s).
  { rewrite <- len_app, <- E1. unfold len in *. rewrite length_firstn. lia. }
  exists (rev b), (rev a ++ l2), post. unfold lineAt.
  split; [| split; [| split; [| split]]].
  - rewrite <- (firstn_skipn (Z.to_nat s) doc) at 1.
    rewrite E1, E2, <- !app_assoc. reflexivity.
  - rewrite len_app. pose proof (len_nonneg (rev a)).
    pose proof (len_nonneg l2). lia.
  - intros H. apply in_app_or in H as [H | H]; [| auto].
    apply in_rev in H. auto.
  - destruct Hb as [-> | (q & ->)]; [left; reflexivity | right].
    exists (rev q). reflexivity.
  - exact Hpost.
Qed.

Lemma nth_error_line (pre line post : jsstring) (i : nat) :
  ~ In NL line -> (length pre <= i < length pre + length line)%nat ->
  nth_error (pre ++ line ++ post) i <> Some NL.
Proof.
  intros Hl Hi H.
  rewrite nth_error_app2 in H by lia.
  rewrite nth_error_app1 in H by lia.
  apply nth_error_In in H. auto.
Qed.

(** The bounds [prefixLine] computes are those of the line of [s], except
    at offset 0 of a document that starts with a newline: there
    [lastIndexOf] finds that newline, behind the caret. *)
Lemma line_bounds (doc : jsstring) (s : Z) (pre line post : jsstring) :
  lineAt doc s pre line post ->
  0 < s \/ line <> [] \/ post = [] ->
  lineStart doc s = len pre /\ lineEnd doc s = len pre + len line.
Proof.
  intros (E & (Hs1 & Hs2) & Hl & Hpre & Hpost) Hq.
  pose proof (len_nonneg pre) as Lp. pose proof (len_nonneg line) as Ll.
  pose proof (len_nonneg post) as Lq.
  assert (Ld : len doc = len pre + len line + len post)
    by (rewrite E, !len_app; lia).
  split.
  - unfold lineStart, lastIndexOf.
    destruct Hpre as [-> | (p & ->)].
    + rewrite lastIndexUpTo_none; [reflexivity |].
      intros i Hi. change (len []) with 0 in *. rewrite E.
      destruct (Nat.lt_ge_cases i (length line)) as [Hlt | Hge].
      * apply nth_error_line; [assumption | cbn [length]; lia].
      * assert (s = 0) as -> by (unfold len in *; lia).
        assert (line = []) as ->
            by (apply length_zero_iff_nil; unfold len in *; lia).
        destruct Hq as [Hq | [Hq | ->]]; [lia | congruence |].
        cbn. destruct i; discriminate.
    + rewrite len_app in *. change (len [NL]) with 1 in *.
      pose proof (len_nonneg p) as Lp'.
      rewrite (lastIndexUpTo_found _ _ (length p)).
      * unfold len. lia.
      * unfold len in *. lia.
      * rewrite E, <- !app_assoc. rewrite nth_error_app2 by lia.
        rewrite Nat.sub_diag. reflexivity.
      * intros i Hi. rewrite E. apply nth_error_line; [assumption |].
        rewrite length_app. cbn [length]. unfold len in *. lia.
  - unfold lineEnd, indexOf.
    replace (Z.min (Z.max s 0) (len doc)) with s by lia.
    assert (Esk : skipn (Z.to_nat s) doc
                  = skipn (Z.to_nat s - length pre) line ++ post).
    { rewrite E, skipn_app, skipn_all2 by (unfold len in *; lia).
      cbn [app]. rewrite skipn_app.
      replace (Z.to_nat s - length pre - length line)%nat with 0%nat
        by (unfold len in *; lia).
      reflexivity. }
    rewrite Esk, indexFrom_line; [| | assumption].
    + destruct post as [| c post].
      * cbn. change (len []) with 0 in Ld. lia.
      * assert (La : len (skipn (Z.to_nat s - length pre) line)
                     = len pre + len line - s)
          by (unfold len in *; rewrite length_skipn; lia).
        rewrite La.
        replace (s + (len pre + len line - s) =? -1) with false
          by (symmetry; apply Z.eqb_neq; lia).
        lia.
    + intros H. apply Hl.
      rewrite <- (firstn_skipn (Z.to_nat s - length pre) line).
      apply in_or_app. right. exact H.
Qed.

Lemma line_parts (doc : jsstring) (s : Z) (pre line post : jsstring) :
  lineAt doc s pre line post ->
  0 < s \/ line <> [] \/ post = [] ->
  currentLine doc s = line
  /\ substring doc 0 (lineStart doc s) = pre
  /\ substringFrom doc (lineEnd doc s) = post.
Proof.
  intros L Hq. destruct (line_bounds doc s pre line post L Hq) as (Es & Ee).
  destruct L as (E & _). unfold currentLine. rewrite Es, Ee, E.
  split; [apply substring_mid | split].
  - apply substring_pre.
  - rewrite app_assoc, <- len_app. apply substringFrom_post.
Qed.

(** [prefixLine] on the line of the caret. *)
Lemma prefixLine_on_line (doc : jsstring) (s e : Z) (prefix pre line post : jsstring) :
  lineAt doc s pre line post ->
  0 < s \/ line <> [] \/ post = [] ->
  prefixLine doc s e prefix
  = if startsWith (trim line) prefix
    then {| newMarkdown := pre ++ replace line prefix [] ++ post;
            newSelection :=
              {| start := Z.max (len pre) (s - len prefix);
                 end_ := e - len prefix |} |}
    else {| newMarkdown := pre ++ prefix ++ line ++ post;
            newSelection :=
              {| start := s + len prefix; end_ := e + len prefix |} |}.
Proof.
  intros L Hq. destruct (line_parts doc s pre line post L Hq) as (El & Ep & Eq).
  destruct (line_bounds doc s pre line post L Hq) as (Es & _).
  unfold prefixLine. rewrite El, Ep, Eq, Es. reflexivity.
Qed.

(** The caret at offset 0 of a document that starts with a newline: the
    bounds cross and the line read is that newline. *)
Lemma line_at_leading_newline (q : jsstring) :
  lineStart (NL :: q) 0 = 1 /\ lineEnd (NL :: q) 0 = 0
  /\ currentLine (NL :: q) 0 = [NL].
Proof.
  assert (Hs : lineStart (NL :: q) 0 = 1).
  { unfold lineStart, lastIndexOf.
    replace (Z.to_nat (Z.min (Z.max (0 - 1) 0) (len (NL :: q)))) with 0%nat
      by (pose proof (len_nonneg (NL :: q)); lia).
    reflexivity. }
  assert (He : lineEnd (NL :: q) 0 = 0).
  { unfold lineEnd, indexOf.
    replace (Z.min (Z.max 0 0) (len (NL :: q))) with 0
      by (pose proof (len_nonneg (NL :: q)); lia).
    reflexivity. }
  split; [exact Hs | split; [exact He |]].
  unfold currentLine. rewrite Hs, He. unfold substring.
  assert (Hl : 1 <= len (NL :: q))
    by (unfold len; cbn [length]; lia).
  replace (Z.min (Z.max 1 0) (len (NL :: q))) with 1 by lia.
  replace (Z.min (Z.max 0 0) (len (NL :: q))) with 0 by lia.
  reflexivity.
Qed.

Lemma headingPrefix_facts (format : FormatAction) (prefix : jsstring) :
  headingPrefix format = Some prefix ->
  (exists p, prefix = 35%N :: p) /\ ~ In NL prefix
  /\ startsWith (trim prefix) prefix = false
  /\ forall P doc s e,
       applyFormat P doc s e format = Returns (prefixLine doc s e prefix).
Proof.
  intros H.
  destruct format; try discriminate; injection H as <-;
    (split; [eexists; reflexivity |
     split; [cbn; unfold NL; intuition discriminate |
     split; [reflexivity | intros; reflexivity]]]).
Qed.

(** The offset 0 of a document that starts with a newline is the one place
    where [line_bounds] does not apply. *)
Lemma lineAt_cases (doc : jsstring) (s : Z) (pre line post : jsstring) :
  0 <= s -> lineAt doc s pre line post ->
  (0 < s \/ line <> [] \/ post = [])
  \/ (s = 0 /\ pre = [] /\ line = [] /\ exists q, doc = NL :: q).
Proof.
  intros H0 (E & (Hs1 & Hs2) & _ & _ & Hpost).
  destruct (Z.eq_dec s 0) as [-> | Hs]; [| left; left; lia].
  destruct line as [| c line]; [| left; right; left; discriminate].
  destruct Hpost as [-> | (q & ->)]; [left; right; right; reflexivity |].
  right. pose proof (len_nonneg pre) as Lp.
  assert (pre = []) as ->
      by (apply length_zero_iff_nil; unfold len in *; lia).
  repeat split. exists q. exact E.
Qed.

(** ** Locality *)

Lemma prefixLine_frame (doc : jsstring) (s e : Z) (prefix : jsstring) :
  exists mid,
    newMarkdown (prefixLine doc s e prefix)
    = substring doc 0 (lineStart doc s) ++ mid
        ++ substringFrom doc (lineEnd doc s).
Proof.
  unfold prefixLine. destruct (startsWith (trim (currentLine doc s)) prefix);
    cbn [newMarkdown].
  - exists (replace (currentLine doc s) prefix []). reflexivity.
  - exists (prefix ++ currentLine doc s). rewrite <- app_assoc. reflexivity.
Qed.

(** A heading action rewrites the line of the caret and nothing else. *)
Lemma prefixLine_local (doc : jsstring) (s e : Z) (prefix : jsstring) :
  0 <= s -> s <= len doc ->
  exists pre line post mid,
    lineAt doc s pre line post
    /\ newMarkdown (prefixLine doc s e prefix) = pre ++ mid ++ post.
Proof.
  intros H0 H1. destruct (lineAt_exists doc s H0 H1) as (pre & line & post & L).
  destruct (prefixLine_frame doc s e prefix) as (mid & E).
  destruct (lineAt_cases doc s pre line post H0 L)
    as [Hq | (-> & -> & -> & q & Ed)].
  - destruct (line_parts doc s pre line post L Hq) as (_ & Ep & Eq).
    rewrite Ep, Eq in E. exists pre, line, post, mid. split; assumption.
  - clear L. subst doc.
    exists [], [], (NL :: q),
      (substring (NL :: q) 0 (lineStart (NL :: q) 0) ++ mid).
    split.
    + unfold lineAt. split; [reflexivity |].
      split; [change (len []) with 0; lia |].
      split; [intros [] |].
      split; [left; reflexivity | right; exists q; reflexivity].
    + rewrite E.
      destruct (line_at_leading_newline q) as (_ & -> & _).
      rewrite substringFrom_valid by (pose proof (len_nonneg (NL :: q)); lia).
      cbn [Z.to_nat skipn app]. rewrite <- app_assoc. reflexivity.
Qed.

(** C1, as amended. For every action but the headings, the text of the
    document before [start] and the text from [end] on are kept around the
    edited region: the new document is [document[0:start]], the edited text
    and [document[end:]]. A heading action edits the line [start] lies on,
    from the start of that line: the text before the line and the text
    after it are kept around the rewritten line. The call returns, except
    for a [table] that is too large. *)
Theorem locality (P : Prompts) (doc : jsstring) (s e : Z) (format : FormatAction) :
  validRange doc s e ->
  match applyFormat P doc s e format with
  | RangeError => format = table
  | Returns r =>
      match headingPrefix format with
      | None =>
          exists mid,
            newMarkdown r = substring doc 0 s ++ mid ++ substringFrom doc e
      | Some _ =>
          exists pre line post mid,
            lineAt doc s pre line post /\ newMarkdown r = pre ++ mid ++ post
      end
  end.
Proof.
  intros (Hs & Hse & He).
  destruct format;
    try (cbn [applyFormat headingPrefix finish insert newMarkdown];
         eexists; reflexivity);
    try (cbn [applyFormat headingPrefix]; apply prefixLine_local; lia).
  cbn [applyFormat headingPrefix]. destruct (tableText P doc s e) as [text |].
  - cbn [bind insert newMarkdown]. eexists; reflexivity.
  - reflexivity.
Qed.

Lemma locality_witness :
  validRange (lit "ab cd") 3 5
  /\ (exists mid,
        lit "ab **cd**" = substring (lit "ab cd") 0 3 ++ mid
                            ++ substringFrom (lit "ab cd") 5)
  /\ (exists pre line post mid,
        lineAt (lit "ab cd") 3 pre line post
        /\ lit "# ab cd" = pre ++ mid ++ post).
Proof.
  assert (V : validRange (lit "ab cd") 3 5)
    by (unfold validRange; vm_compute; intuition discriminate).
  split; [exact V | split].
  - exact (locality cancelled (lit "ab cd") 3 5 bold V).
  - exact (locality cancelled (lit "ab cd") 3 5 h1 V).
Defined.

(** C1 as stated fails for the headings: with the caret at offset 2 of abc,
    [h1] writes its prefix at offset 0 and the first two code units of the
    document no longer start the new one; with the caret at offset 0 of a
    heading line, [h1] removes the prefix after the caret, and the new
    document is shorter than the text that was to stay behind the caret. *)
Lemma locality_counterexample :
  (exists r, applyFormat cancelled (lit "abc") 2 2 h1 = Returns r
             /\ newMarkdown r = lit "# abc"
             /\ startsWith (newMarkdown r) (substring (lit "abc") 0 2) = false)
  /\ (exists r, applyFormat cancelled (lit "# abc") 0 0 h1 = Returns r
                /\ newMarkdown r = lit "abc"
                /\ substringFrom (lit "# abc") 0 = lit "# abc").
Proof.
  split; eexists; (split; [reflexivity | split; reflexivity]).
Qed.

(** ** The selection returned *)

(** C2 fails on the code: [prefixLine] keeps the new start from moving before
    the line when it removes a prefix, but not the new end. With the caret
    at offset 0 of the line # abc, [h1] returns the selection [0, -2]. *)
Theorem heading_strip_selection_out_of_bounds :
  validRange (lit "# abc") 0 0
  /\ applyFormat cancelled (lit "# abc") 0 0 h1
     = Returns {| newMarkdown := lit "abc";
                  newSelection := {| start := 0; end_ := -2 |} |}.
Proof.
  split; [unfold validRange; vm_compute; intuition discriminate | reflexivity].
Qed.

(** ** Heading toggle *)

(** C5, as amended. Applying a heading action and applying it again at the
    selection returned restores the document when the line of the caret
    either has a trimmed text that is not empty and does not start with the
    prefix (the prefix is added, then removed: the selection is restored
    too), or starts with the prefix at its first column, its trimmed text
    starts with it, and the trimmed text of what follows the prefix does not
    start with it again (the prefix is removed, then added). *)
Theorem heading_toggle_round_trip (P : Prompts) (doc : jsstring) (s e : Z)
    (format : FormatAction) (prefix : jsstring) :
  validRange doc s e ->
  headingPrefix format = Some prefix ->
  (startsWith (trim (currentLine doc s)) prefix = false
   /\ trim (currentLine doc s) <> [])
  \/ (startsWith (trim (currentLine doc s)) prefix = true
      /\ startsWith (currentLine doc s) prefix = true
      /\ startsWith (trim (skipn (length prefix) (currentLine doc s))) prefix
         = false) ->
  exists r1 r2,
    applyFormat P doc s e format = Returns r1
    /\ applyFormat P (newMarkdown r1)
         (start (newSelection r1)) (end_ (newSelection r1)) format
       = Returns r2
    /\ newMarkdown r2 = doc
    /\ (startsWith (trim (currentLine doc s)) prefix = false ->
        newSelection r2 = {| start := s; end_ := e |}).
Proof.
  intros (Hs & Hse & He) Hp Hcases.
  destruct (headingPrefix_facts format prefix Hp)
    as ((p & Ep) & Hnl & Htp & Happ).
  assert (Hhash : isWhiteSpace 35%N = false) by reflexivity.
  destruct (lineAt_exists doc s Hs ltac:(lia)) as (pre & line & post & L).
  destruct (lineAt_cases doc s pre line post Hs L)
    as [Hq | (-> & -> & -> & q & Ed)].
  2:{ (* offset 0 of a document that starts with a newline: the line read
         is that newline, which neither case allows *)
      exfalso. subst doc.
      destruct (line_at_leading_newline q) as (_ & _ & El).
      rewrite El in Hcases. subst prefix.
      destruct Hcases as [(_ & H) | (_ & H & _)].
      - apply H. reflexivity.
      - discriminate H. }
  destruct (line_parts doc s pre line post L Hq) as (El & _ & _).
  rewrite El in Hcases. rewrite El.
  rewrite !Happ, (prefixLine_on_line doc s e prefix pre line post L Hq).
  pose proof L as (Edoc & (Hs1 & Hs2) & Hline & Hpre & Hpost).
  pose proof (len_nonneg prefix) as Lpx.
  destruct Hcases as [(Hno & Hne) | (Hyes & Hcol & Hrest)].
  - (* the prefix is added, then removed *)
    rewrite Hno.
    exists {| newMarkdown := pre ++ prefix ++ line ++ post;
              newSelection :=
                {| start := s + len prefix; end_ := e + len prefix |} |}.
    exists {| newMarkdown := doc;
              newSelection := {| start := s; end_ := e |} |}.
    split; [reflexivity |]. split; [| split; reflexivity].
    cbn [newMarkdown newSelection start end_]. rewrite Happ.
    assert (L' : lineAt (pre ++ prefix ++ line ++ post) (s + len prefix)
                   pre (prefix ++ line) post).
    { unfold lineAt. rewrite <- app_assoc. split; [reflexivity |].
      rewrite len_app. split; [lia |].
      split; [| split; assumption].
      intros H. apply in_app_or in H as [H | H]; auto. }
    rewrite (prefixLine_on_line _ _ _ prefix pre (prefix ++ line) post L')
      by (right; left; subst prefix; discriminate).
    rewrite replace_self_app.
    replace (startsWith (trim (prefix ++ line)) prefix) with true
      by (symmetry; subst prefix;
          exact (startsWith_trim_prefixed line p 35%N Hhash Hne)).
    rewrite <- Edoc. do 3 f_equal; lia.
  - (* the prefix is removed, then added *)
    rewrite Hyes. apply startsWith_iff in Hcol as (rest & Er).
    rewrite Er in Hrest.
    rewrite skipn_app, Nat.sub_diag, skipn_all in Hrest.
    cbn [app skipn] in Hrest.
    assert (Hrne : rest <> []).
    { intros ->. rewrite app_nil_r in Er. subst line. congruence. }
    exists {| newMarkdown := pre ++ rest ++ post;
              newSelection :=
                {| start := Z.max (len pre) (s - len prefix);
                   end_ := e - len prefix |} |}.
    exists {| newMarkdown := doc;
              newSelection :=
                {| start := Z.max (len pre) (s - len prefix) + len prefix;
                   end_ := e - len prefix + len prefix |} |}.
    split; [rewrite Er, replace_self_app; reflexivity |].
    split; [| split; [reflexivity | intros H; congruence]].
    cbn [newMarkdown newSelection start end_]. rewrite Happ.
    assert (L' : lineAt (pre ++ rest ++ post)
                   (Z.max (len pre) (s - len prefix)) pre rest post).
    { unfold lineAt. split; [reflexivity |].
      rewrite Er, len_app in Hs2. pose proof (len_nonneg rest) as Lr.
      split; [lia |].
      split; [| split; assumption].
      intros H. apply Hline. rewrite Er. apply in_or_app. right. exact H. }
    rewrite (prefixLine_on_line _ _ _ prefix pre rest post L')
      by (right; left; exact Hrne).
    rewrite Hrest, Edoc, Er, <- app_assoc. reflexivity.
Qed.

Lemma heading_toggle_round_trip_witness :
  (exists r1 r2,
     applyFormat cancelled (lit "abc") 1 2 h2 = Returns r1
     /\ applyFormat cancelled (newMarkdown r1)
          (start (newSelection r1)) (end_ (newSelection r1)) h2
        = Returns r2
     /\ newMarkdown r2 = lit "abc"
     /\ (startsWith (trim (currentLine (lit "abc") 1)) (lit "## ") = false ->
         newSelection r2 = {| start := 1; end_ := 2 |}))
  /\ (exists r1 r2,
        applyFormat cancelled (lit "# abc") 5 5 h1 = Returns r1
        /\ applyFormat cancelled (newMarkdown r1)
             (start (newSelection r1)) (end_ (newSelection r1)) h1
           = Returns r2
        /\ newMarkdown r2 = lit "# abc"
        /\ (startsWith (trim (currentLine (lit "# abc") 5)) (lit "# ") = false ->
            newSelection r2 = {| start := 5; end_ := 5 |})).
Proof.
  split.
  - apply (heading_toggle_round_trip cancelled (lit "abc") 1 2 h2 (lit "## ")).
    + unfold validRange. vm_compute. intuition discriminate.
    + reflexivity.
    + left. split; [reflexivity | vm_compute; discriminate].
  - apply (heading_toggle_round_trip cancelled (lit "# abc") 5 5 h1 (lit "# ")).
    + unfold validRange. vm_compute. intuition discriminate.
    + reflexivity.
    + right. split; [reflexivity | split; reflexivity].
Defined.

(** C5 as stated fails: on a line that starts with the prefix twice both
    applications remove a prefix; on an indented heading the prefix comes
    back before the indentation; and on an empty line the prefix added is
    not found again, its trailing space being trimmed away, and a second
    prefix is added. *)
Lemma heading_toggle_counterexample :
  (exists r1 r2,
     applyFormat cancelled (lit "# # a") 5 5 h1 = Returns r1
     /\ applyFormat cancelled (newMarkdown r1)
          (start (newSelection r1)) (end_ (newSelection r1)) h1
        = Returns r2
     /\ newMarkdown r1 = lit "# a" /\ newMarkdown r2 = lit "a")
  /\ (exists r1 r2,
        applyFormat cancelled (lit "  # a") 5 5 h1 = Returns r1
        /\ applyFormat cancelled (newMarkdown r1)
             (start (newSelection r1)) (end_ (newSelection r1)) h1
           = Returns r2
        /\ newMarkdown r1 = lit "  a" /\ newMarkdown r2 = lit "#   a")
  /\ (exists r1 r2,
        applyFormat cancelled [] 0 0 h1 = Returns r1
        /\ applyFormat cancelled (newMarkdown r1)
             (start (newSelection r1)) (end_ (newSelection r1)) h1
           = Returns r2
        /\ newMarkdown r1 = lit "# " /\ newMarkdown r2 = lit "# # ").
Proof.
  split; [| split]; eexists; eexists;
    (split; [reflexivity | split; [reflexivity | split; reflexivity]]).
Qed.

(** ** Lists *)

Lemma split_nonempty (sep : char16) (s : jsstring) : split sep s <> [].
Proof.
  destruct s as [| c s]; cbn [split]; [discriminate |].
  destruct (N.eqb c sep); [discriminate |].
  destruct (split sep s); discriminate.
Qed.

Lemma join_cons_head (sep : jsstring) (c : char16) (l : jsstring)
    (ls : list jsstring) :
  join sep ((c :: l) :: ls) = c :: join sep (l :: ls).
Proof. destruct ls; reflexivity. Qed.

(** The lines of a text, joined again, are the text. *)
Lemma join_split (s : jsstring) : join [NL] (split NL s) = s.
Proof.
  induction s as [| c s IH]; [reflexivity |].
  cbn [split]. destruct (N.eqb_spec c NL) as [-> | Hc].
  - rewrite join_cons by apply split_nonempty. rewrite IH. reflexivity.
  - pose proof (split_nonempty NL s) as Hne.
    destruct (split NL s) as [| l ls]; [congruence |].
    rewrite join_cons_head, IH. reflexivity.
Qed.

Lemma Forall2_map_right {A B : Type} (R : A -> B -> Prop) (f : A -> B)
    (l : list A) :
  (forall x, In x l -> R x (f x)) -> Forall2 R l (map f l).
Proof.
  induction l as [| x l IH]; intros H; cbn [map]; constructor.
  - apply H. left. reflexivity.
  - apply IH. intros y Hy. apply H. right. exact Hy.
Qed.

(** C7. For [ul] on the lines of the selection: when the trimmed text of
    every line starts with the dash and space, every line loses that prefix
    (what stands before and after it is kept); otherwise the prefix is put
    before the lines whose trimmed text does not start with it and the other
    lines are kept as they are; the lines are joined again, replace the
    selection, and the new selection is [start, start + length of the joined
    text]. The lines a and - b become - a and - b, and these become a and
    b. *)
Theorem unordered_list_toggle (P : Prompts) (doc : jsstring) (s e : Z) :
  (exists newLines,
     applyFormat P doc s e ul
     = Returns
         {| newMarkdown :=
              substring doc 0 s ++ join [NL] newLines ++ substringFrom doc e;
            newSelection :=
              {| start := s; end_ := s + len (join [NL] newLines) |} |}
     /\ join [NL] (split NL (substring doc s e)) = substring doc s e
     /\ (forallb (fun l => startsWith (trim l) (lit "- "))
           (split NL (substring doc s e)) = true ->
         Forall2
           (fun l l' =>
              exists indent rest,
                l = indent ++ lit "- " ++ rest
                /\ forallb isWhiteSpace indent = true
                /\ l' = indent ++ rest)
           (split NL (substring doc s e)) newLines)
     /\ (forallb (fun l => startsWith (trim l) (lit "- "))
           (split NL (substring doc s e)) = false ->
         Forall2
           (fun l l' =>
              l' = if startsWith (trim l) (lit "- ") then l else lit "- " ++ l)
           (split NL (substring doc s e)) newLines))
  /\ applyFormat P (lit "a" ++ [NL] ++ lit "- b") 0 5 ul
     = Returns {| newMarkdown := lit "- a" ++ [NL] ++ lit "- b";
                  newSelection := {| start := 0; end_ := 7 |} |}
  /\ applyFormat P (lit "- a" ++ [NL] ++ lit "- b") 0 7 ul
     = Returns {| newMarkdown := lit "a" ++ [NL] ++ lit "b";
                  newSelection := {| start := 0; end_ := 3 |} |}.
Proof.
  split; [| split; reflexivity].
  unfold applyFormat, finish, applyLineFormatting, selection.
  cbn [newText newSelectionStart newSelectionEnd].
  destruct (forallb (fun l => startsWith (trim l) (lit "- "))
              (split NL (substring doc s e))) eqn:Hall.
  - exists (map (fun line => replace line (lit "- ") [])
              (split NL (substring doc s e))).
    split; [reflexivity |]. split; [apply join_split |].
    split; [| discriminate].
    intros _. apply Forall2_map_right. intros l Hl.
    rewrite forallb_forall in Hall. specialize (Hall l Hl).
    exact (replace_trimmed_prefix l [32%N] 45%N eq_refl Hall).
  - exists (map (fun line => if startsWith (trim line) (lit "- ") then line
                             else lit "- " ++ line)
              (split NL (substring doc s e))).
    split; [reflexivity |]. split; [apply join_split |].
    split; [discriminate |].
    intros _. apply Forall2_map_right. intros l _. reflexivity.
Qed.

Lemma unordered_list_toggle_witness :
  exists newLines,
    applyFormat cancelled (lit "  - a") 0 5 ul
    = Returns
        {| newMarkdown :=
             substring (lit "  - a") 0 0 ++ join [NL] newLines
               ++ substringFrom (lit "  - a") 5;
           newSelection :=
             {| start := 0; end_ := 0 + len (join [NL] newLines) |} |}
    /\ Forall2
         (fun l l' =>
            exists indent rest,
              l = indent ++ lit "- " ++ rest
              /\ forallb isWhiteSpace indent = true
              /\ l' = indent ++ rest)
         [lit "  - a"] newLines.
Proof.
  destruct (unordered_list_toggle cancelled (lit "  - a") 0 5)
    as ((newLines & H1 & _ & H2 & _) & _).
  exists newLines. split; [exact H1 | exact (H2 eq_refl)].
Defined.

(** ** Ordered list *)

(** C6 fails on the code for indented lines: the test for numbered lines
    reads the trimmed text of each line, the removal reads the line as it
    is, from its first code unit. The selected line with one space before
    3. x counts as numbered and is returned as it was; on lines that are not
    indented the numbering is removed, and lines not all numbered are
    numbered from 1. *)
Theorem ordered_list_indented_not_stripped :
  forallb (fun line => testNumbered (trim line))
    (split NL (substring (lit " 3. x") 0 5)) = true
  /\ applyFormat cancelled (lit " 3. x") 0 5 ol
     = Returns {| newMarkdown := lit " 3. x";
                  newSelection := {| start := 0; end_ := 5 |} |}
  /\ applyFormat cancelled (lit "3. x" ++ [NL] ++ lit "7. y") 0 9 ol
     = Returns {| newMarkdown := lit "x" ++ [NL] ++ lit "y";
                  newSelection := {| start := 0; end_ := 3 |} |}
  /\ applyFormat cancelled (lit "x" ++ [NL] ++ lit "y") 0 3 ol
     = Returns {| newMarkdown := lit "1. x" ++ [NL] ++ lit "2. y";
                  newSelection := {| start := 0; end_ := 9 |} |}.
Proof. repeat split. Qed.

(** ** Where the selection returned is in bounds *)

Lemma len_replaced (doc : jsstring) (s e : Z) (text : jsstring) :
  validRange doc s e ->
  len (substring doc 0 s ++ text ++ substringFrom doc e)
  = s + len text + (len doc - e).
Proof.
  intros (Hs & Hse & He). rewrite !len_app.
  rewrite len_substring, len_substringFrom by lia. lia.
Qed.

Lemma finish_in_bounds (doc : jsstring) (s e : Z) (ed : Edit) :
  validRange doc s e ->
  s <= newSelectionStart ed -> newSelectionStart ed <= newSelectionEnd ed ->
  newSelectionEnd ed <= s + len (newText ed) ->
  inBounds (finish doc s e ed).
Proof.
  intros V H1 H2 H3. unfold inBounds, finish.
  cbn [newMarkdown newSelection start end_].
  rewrite (len_replaced doc s e _ V). destruct V as (Hs & Hse & He). lia.
Qed.

Lemma insert_in_bounds (doc : jsstring) (s e : Z) (text : jsstring) :
  validRange doc s e -> inBounds (insert doc s e text (len text)).
Proof.
  intros V. unfold inBounds, insert.
  cbn [newMarkdown newSelection start end_].
  rewrite (len_replaced doc s e _ V). destruct V as (Hs & Hse & He).
  pose proof (len_nonneg text). lia.
Qed.

Lemma prefixLine_in_bounds (doc : jsstring) (s e : Z) (p : jsstring) :
  validRange doc s e ->
  (startsWith (trim (currentLine doc s)) (35%N :: p) = true ->
   lineStart doc s + len (35%N :: p) <= e) ->
  inBounds (prefixLine doc s e (35%N :: p)).
Proof.
  intros (Hs & Hse & He) Hclamp.
  pose proof (len_nonneg (35%N :: p)) as Lpx.
  destruct (lineAt_exists doc s Hs ltac:(lia)) as (pre & line & post & L).
  destruct (lineAt_cases doc s pre line post Hs L)
    as [Hq | (-> & -> & -> & q & Ed)].
  - destruct (line_parts doc s pre line post L Hq) as (El & _ & _).
    destruct (line_bounds doc s pre line post L Hq) as (Es & _).
    rewrite (prefixLine_on_line doc s e _ pre line post L Hq).
    rewrite El, Es in Hclamp.
    destruct L as (Edoc & (Hs1 & Hs2) & _).
    pose proof (len_nonneg pre) as Lp.
    destruct (startsWith (trim line) (35%N :: p)) eqn:Hsw; unfold inBounds;
      cbn [newMarkdown newSelection start end_].
    + specialize (Hclamp eq_refl).
      destruct (replace_trimmed_prefix line p 35%N eq_refl Hsw)
        as (indent & rest & El' & _ & Er).
      rewrite Er. rewrite Edoc, El', !len_app in He.
      rewrite !len_app. lia.
    + rewrite Edoc, !len_app in He. rewrite !len_app. lia.
  - subst doc. unfold prefixLine, inBounds.
    destruct (line_at_leading_newline q) as (_ & Ee & El).
    rewrite El, Ee.
    change (startsWith (trim [NL]) (35%N :: p)) with false.
    cbn [newMarkdown newSelection start end_].
    rewrite substringFrom_valid by lia. cbn [Z.to_nat skipn].
    rewrite !len_app.
    pose proof (len_nonneg (substring (NL :: q) 0 (lineStart (NL :: q) 0))).
    change (len [NL]) with 1. lia.
Qed.

(** An inline wrap returns the selection of the wrapped text. *)
Ltac wrap_in_bounds H :=
  injection H as <-; rewrite finish_wrap by assumption;
  unfold inBounds, wrapShape; cbn [newMarkdown newSelection start end_];
  rewrite !len_app, len_substring, len_substring, len_substringFrom by lia;
  match goal with
  | |- context [len (lit ?t)] => pose proof (len_nonneg (lit t))
  end;
  lia.

(** X4. The selection returned is a range of the document returned in every
    case but one: a heading action that removes the prefix of a line while the
    end of the selection is less than the length of the prefix away from the
    start of that line. *)
Lemma selection_in_bounds (P : Prompts) (doc : jsstring) (s e : Z)
    (format : FormatAction) (r : FormatResult) :
  validRange doc s e ->
  applyFormat P doc s e format = Returns r ->
  (forall prefix,
     headingPrefix format = Some prefix ->
     startsWith (trim (currentLine doc s)) prefix = true ->
     lineStart doc s + len prefix <= e) ->
  inBounds r.
Proof.
  intros V H Hclamp.
  assert (Hheading : forall prefix,
             headingPrefix format = Some prefix -> inBounds r).
  { intros prefix Hp.
    destruct (headingPrefix_facts format prefix Hp) as ((p & Ep) & _ & _ & Happ).
    rewrite Happ in H. injection H as <-. specialize (Hclamp prefix Hp).
    subst prefix. apply (prefixLine_in_bounds doc s e p V Hclamp). }
  pose proof V as (Hs & Hse & He).
  destruct format; try (apply (Hheading _ eq_refl));
    cbn [applyFormat] in H.
  - wrap_in_bounds H.
  - wrap_in_bounds H.
  - wrap_in_bounds H.
  - wrap_in_bounds H.
  - injection H as <-. apply finish_in_bounds; [assumption | ..];
      unfold linkEdit; cbn [newText newSelectionStart newSelectionEnd];
      try match goal with
          | |- context [len ?t] => pose proof (len_nonneg t)
          end;
      lia.
  - injection H as <-. apply insert_in_bounds. assumption.
  - destruct (tableText P doc s e) as [text |]; [| discriminate].
    cbn [bind] in H. injection H as <-. apply insert_in_bounds. assumption.
  - injection H as <-. apply finish_in_bounds; [assumption | ..];
      unfold applyLineFormatting;
      cbn [newText newSelectionStart newSelectionEnd];
      try match goal with
          | |- context [len ?t] => pose proof (len_nonneg t)
          end;
      lia.
  - injection H as <-. apply finish_in_bounds; [assumption | ..];
      unfold orderedList; cbn [newText newSelectionStart newSelectionEnd];
      try match goal with
          | |- context [len ?t] => pose proof (len_nonneg t)
          end;
      lia.
Qed.

(** ** The status bar *)

Lemma runs_white (c : N) (s : list N) :
  isWhiteSpace c = true ->
  StatusBar.nonSpaceRuns (c :: s) = StatusBar.nonSpaceRuns s.
Proof. intros H. cbn [StatusBar.nonSpaceRuns]. rewrite H. reflexivity. Qed.

Lemma runs_all_white (w : list N) :
  forallb isWhiteSpace w = true -> StatusBar.nonSpaceRuns w = [].
Proof.
  induction w as [| c w IH]; [reflexivity |]. cbn [forallb]. intros H.
  apply andb_true_iff in H as (Hc & Hw). rewrite runs_white by exact Hc. auto.
Qed.

Lemma runs_nil (s : list N) :
  StatusBar.nonSpaceRuns s = [] <-> forallb isWhiteSpace s = true.
Proof.
  split; [| apply runs_all_white].
  induction s as [| c s IH]; [reflexivity |].
  cbn [StatusBar.nonSpaceRuns forallb].
  destruct (isWhiteSpace c); cbn [andb]; [exact IH |].
  intros H. exfalso. destruct s as [| c' s]; [discriminate H |].
  destruct (isWhiteSpace c'); [discriminate H |].
  destruct (StatusBar.nonSpaceRuns (c' :: s)); discriminate H.
Qed.

Lemma runs_white_app (w s : list N) :
  forallb isWhiteSpace w = true ->
  StatusBar.nonSpaceRuns (w ++ s) = StatusBar.nonSpaceRuns s.
Proof.
  induction w as [| c w IH]; [reflexivity |]. cbn [forallb app]. intros H.
  apply andb_true_iff in H as (Hc & Hw). rewrite runs_white by exact Hc. auto.
Qed.

(** The runs of two texts with a white space between them. *)
Lemma runs_app (a b : list N) (c : N) :
  isWhiteSpace c = true ->
  StatusBar.nonSpaceRuns (a ++ c :: b)
  = StatusBar.nonSpaceRuns a ++ StatusBar.nonSpaceRuns b.
Proof.
  intros Hc. induction a as [| x a IH].
  - cbn [app]. apply runs_white. exact Hc.
  - cbn [app StatusBar.nonSpaceRuns]. destruct (isWhiteSpace x); [exact IH |].
    destruct a as [| y a].
    + cbn [app]. rewrite Hc, runs_white by exact Hc. reflexivity.
    + cbn [app] in *. destruct (isWhiteSpace y) eqn:Hy.
      * rewrite IH. reflexivity.
      * rewrite IH.
        destruct (StatusBar.nonSpaceRuns (y :: a)) as [| r rs] eqn:E.
        -- apply runs_nil in E. cbn [forallb] in E.
           apply andb_true_iff in E as (E & _). congruence.
        -- reflexivity.
Qed.

Lemma runs_app_white (s w : list N) :
  forallb isWhiteSpace w = true ->
  StatusBar.nonSpaceRuns (s ++ w) = StatusBar.nonSpaceRuns s.
Proof.
  intros Hw. destruct w as [| c w]; [rewrite app_nil_r; reflexivity |].
  cbn [forallb] in Hw. apply andb_true_iff in Hw as (Hc & Hw).
  rewrite runs_app by exact Hc.
  rewrite (runs_all_white w Hw). apply app_nil_r.
Qed.

(** Trimming removes no word. *)
Lemma runs_trim (t : list N) :
  StatusBar.nonSpaceRuns (trim t) = StatusBar.nonSpaceRuns t.
Proof.
  destruct (trimStart_decomp t) as (w1 & E1 & H1).
  destruct (trimEnd_decomp (trimStart t)) as (w2 & E2 & H2).
  replace (StatusBar.nonSpaceRuns t)
    with (StatusBar.nonSpaceRuns (w1 ++ trimStart t))
    by (rewrite <- E1; reflexivity).
  rewrite runs_white_app by exact H1.
  replace (StatusBar.nonSpaceRuns (trimStart t))
    with (StatusBar.nonSpaceRuns (trimEnd (trimStart t) ++ w2))
    by (rewrite <- E2; reflexivity).
  rewrite runs_app_white by exact H2. reflexivity.
Qed.

Lemma words_runs (t : list N) :
  StatusBar.words (StatusBar.counts t)
  = Z.of_nat (length (StatusBar.nonSpaceRuns t)).
Proof.
  unfold StatusBar.counts, StatusBar.matchNonSpace. cbn [StatusBar.words].
  rewrite runs_trim. destruct (StatusBar.nonSpaceRuns t); reflexivity.
Qed.

(** Every word has a code unit, and between two words there is one. *)
Lemma runs_length (s : list N) :
  (2 * length (StatusBar.nonSpaceRuns s)
   <= length s + match s with
                 | c :: _ => if isWhiteSpace c then 0 else 1
                 | [] => 0
                 end)%nat.
Proof.
  induction s as [| c s IH]; [cbn; lia |].
  cbn [StatusBar.nonSpaceRuns length].
  destruct (isWhiteSpace c) eqn:Hc.
  - destruct s as [| c' s]; [cbn in *; lia |].
    destruct (isWhiteSpace c'); lia.
  - destruct s as [| c' s]; [cbn; lia |].
    destruct (isWhiteSpace c') eqn:Hc'.
    + cbn [length] in *. lia.
    + destruct (StatusBar.nonSpaceRuns (c' :: s)); cbn [length] in *; lia.
Qed.

(** X1. The status bar shows 0 words exactly when it shows 0 characters, and
    that is exactly when the text is empty or only white space. *)
Theorem status_blank (text : list N) :
  (StatusBar.words (StatusBar.counts text) = 0
   <-> forallb isWhiteSpace text = true)
  /\ (StatusBar.characters (StatusBar.counts text) = 0
      <-> forallb isWhiteSpace text = true).
Proof.
  split.
  - rewrite words_runs, <- runs_nil. split.
    + intros H. apply length_zero_iff_nil. lia.
    + intros ->. reflexivity.
  - unfold StatusBar.counts. cbn [StatusBar.characters].
    rewrite <- trim_nil. unfold len. split.
    + intros H. apply length_zero_iff_nil. lia.
    + intros ->. reflexivity.
Qed.

(** X2. The numbers of the status bar are bounded by the text: there are at
    most as many words as characters, n words need at least 2n - 1
    characters, and the characters counted are at most the length of the
    text, the white space at both ends being left out. *)
Theorem status_bounds (text : list N) :
  0 <= StatusBar.words (StatusBar.counts text)
  /\ StatusBar.words (StatusBar.counts text)
     <= StatusBar.characters (StatusBar.counts text)
  /\ 2 * StatusBar.words (StatusBar.counts text)
     <= StatusBar.characters (StatusBar.counts text) + 1
  /\ StatusBar.characters (StatusBar.counts text) <= len text.
Proof.
  assert (Hc : StatusBar.characters (StatusBar.counts text) = len (trim text))
    by reflexivity.
  assert (Hw : StatusBar.words (StatusBar.counts text)
               = Z.of_nat (length (StatusBar.nonSpaceRuns (trim text))))
    by (rewrite words_runs, runs_trim; reflexivity).
  rewrite Hc, Hw. pose proof (runs_length (trim text)) as HL.
  assert (Hlen : len (trim text) <= len text).
  { destruct (trimStart_decomp text) as (w1 & E1 & _).
    destruct (trimEnd_decomp (trimStart text)) as (w2 & E2 & _).
    assert (L1 : len text = len w1 + len (trimStart text))
      by (rewrite <- len_app, <- E1; reflexivity).
    assert (L2 : len (trimStart text) = len (trim text) + len w2)
      by (unfold trim; rewrite <- len_app, <- E2; reflexivity).
    pose proof (len_nonneg w1). pose proof (len_nonneg w2). lia. }
  assert (Hh : (match trim text with
                | c :: _ => if isWhiteSpace c then 0 else 1
                | [] => 0
                end <= 1)%nat)
    by (destruct (trim text) as [| c ?]; [lia | destruct (isWhiteSpace c); lia]).
  assert (H0 : length (StatusBar.nonSpaceRuns (trim text)) = 0%nat
               \/ (1 <= length (StatusBar.nonSpaceRuns (trim text)))%nat)
    by lia.
  unfold len in *. repeat split; try lia.
Qed.

(** X3. Words are counted across white space: white space before and after
    the text does not count, and the words of two texts with a white space
    between them are the words of the one and the words of the other. *)
Theorem status_words_additive (a b w1 w2 : list N) (c : N) :
  isWhiteSpace c = true ->
  forallb isWhiteSpace w1 = true -> forallb isWhiteSpace w2 = true ->
  StatusBar.words (StatusBar.counts (a ++ c :: b))
  = StatusBar.words (StatusBar.counts a) + StatusBar.words (StatusBar.counts b)
  /\ StatusBar.words (StatusBar.counts (w1 ++ a ++ w2))
     = StatusBar.words (StatusBar.counts a).
Proof.
  intros Hc H1 H2. rewrite !words_runs. split.
  - rewrite runs_app by exact Hc. rewrite length_app. lia.
  - rewrite runs_white_app by exact H1. rewrite runs_app_white by exact H2.
    reflexivity.
Qed.

Lemma status_words_additive_witness :
  StatusBar.words (StatusBar.counts (lit "two words" ++ NL :: lit "and three more"))
  = 2 + 3
  /\ StatusBar.words (StatusBar.counts (lit "  " ++ lit "two words" ++ [NL]))
     = 2.
Proof.
  exact (status_words_additive (lit "two words") (lit "and three more")
           (lit "  ") [NL] NL eq_refl eq_refl eq_refl).
Defined.

(** ** More on [applyFormat] *)

Lemma selection_in_bounds_witness :
  validRange (lit "# abc") 3 4
  /\ inBounds {| newMarkdown := lit "abc";
                 newSelection := {| start := 1; end_ := 2 |} |}.
Proof.
  assert (V : validRange (lit "# abc") 3 4)
    by (unfold validRange; vm_compute; intuition discriminate).
  split; [exact V |].
  apply (selection_in_bounds cancelled (lit "# abc") 3 4 h1 _ V eq_refl).
  intros prefix Hp _. injection Hp as <-. vm_compute. discriminate.
Defined.

(** X5. A table that is too large is not inserted: when the two counts pass
    the test and one of them is 2^32 or more, which [Array] refuses, or the
    block, of 7cr + 15c + 2r + 5 code units, would be longer than the
    longest string the engine makes, [applyFormat] raises a [RangeError]. *)
Theorem table_too_large_raises (P : Prompts) (doc : list N) (s e c r : Z) :
  promptCount (colsAnswer P) = Some c ->
  promptCount (rowsAnswer P) = Some r ->
  0 < c -> 0 < r ->
  2 ^ 32 <= c \/ 2 ^ 32 <= r
  \/ maxStringLength < 7 * c * r + 15 * c + 2 * r + 5 ->
  applyFormat P doc s e table = RangeError.
Proof.
  intros Hc Hr Hc0 Hr0 Hbig.
  exact (table_raises P doc s e c r Hc Hr Hc0 Hr0 Hbig).
Qed.

Lemma table_too_large_raises_witness :
  applyFormat (withCounts cancelled (Some (lit "30000")) (Some (lit "3000")))
    (lit "abc") 1 2 table
  = RangeError.
Proof.
  apply (table_too_large_raises _ (lit "abc") 1 2 30000 3000);
    try (vm_compute; reflexivity).
  right. right. vm_compute. reflexivity.
Defined.

Lemma wrapShape_text (doc : list N) (s e : Z) (token : list N) :
  validRange doc s e ->
  substring (newMarkdown (wrapShape doc s e token))
    (s + len token) (s + len token + (e - s))
  = substring doc s e
  /\ len (newMarkdown (wrapShape doc s e token)) = len doc + 2 * len token.
Proof.
  intros (Hs & Hse & He). unfold wrapShape. cbn [newMarkdown]. split.
  - rewrite (app_assoc (substring doc 0 s) token).
    pose proof (substring_mid (substring doc 0 s ++ token) (substring doc s e)
                  (token ++ substringFrom doc e)) as M.
    rewrite len_app, !len_substring in M by lia.
    rewrite Z.sub_0_r in M. exact M.
  - rewrite !len_app, !len_substring, len_substringFrom by lia. lia.
Qed.

Lemma wrapShape_keeps (doc : list N) (s e : Z) (token : list N) :
  validRange doc s e -> 0 < len token ->
  substring (newMarkdown (wrapShape doc s e token))
    (start (newSelection (wrapShape doc s e token)))
    (end_ (newSelection (wrapShape doc s e token)))
  = substring doc s e
  /\ 0 < start (newSelection (wrapShape doc s e token)) - s
  /\ len (newMarkdown (wrapShape doc s e token))
     = len doc + 2 * (start (newSelection (wrapShape doc s e token)) - s).
Proof.
  intros V Ht. destruct (wrapShape_text doc s e token V) as (E & L).
  rewrite L. cbn [wrapShape newSelection start end_].
  split; [exact E | split; lia].
Qed.

(** X6. An inline wrap keeps the selected text selected: the selection
    returned by [bold], [italic], [strikethrough] and [code] holds, in the
    new document, the text that was selected, and the document grows by
    the token on each side. *)
Theorem inline_wrap_keeps_selected_text (P : Prompts) (doc : list N)
    (s e : Z) (format : FormatAction) :
  validRange doc s e ->
  format = bold \/ format = italic \/ format = strikethrough \/ format = code ->
  exists r,
    applyFormat P doc s e format = Returns r
    /\ substring (newMarkdown r)
         (start (newSelection r)) (end_ (newSelection r))
       = substring doc s e
    /\ 0 < start (newSelection r) - s
    /\ len (newMarkdown r) = len doc + 2 * (start (newSelection r) - s).
Proof.
  intros V Hf. pose proof V as (Hs & Hse & He).
  destruct Hf as [-> | [-> | [-> | ->]]]; cbn [applyFormat];
    rewrite finish_wrap by assumption;
    (eexists; split; [reflexivity |]);
    apply wrapShape_keeps; (assumption || reflexivity).
Qed.

Lemma inline_wrap_keeps_selected_text_witness :
  exists r,
    applyFormat cancelled (lit "a word here") 2 6 strikethrough = Returns r
    /\ substring (newMarkdown r)
         (start (newSelection r)) (end_ (newSelection r))
       = substring (lit "a word here") 2 6
    /\ 0 < start (newSelection r) - 2
    /\ len (newMarkdown r)
       = len (lit "a word here") + 2 * (start (newSelection r) - 2).
Proof.
  apply (inline_wrap_keeps_selected_text cancelled (lit "a word here") 2 6).
  - unfold validRange. vm_compute. intuition discriminate.
  - right. right. left. reflexivity.
Defined.

Lemma substring_empty_iff (doc : list N) (s e : Z) :
  validRange doc s e -> (substring doc s e = [] <-> s = e).
Proof.
  intros (Hs & Hse & He).
  pose proof (len_substring doc s e Hs Hse He) as L. split.
  - intros E. rewrite E in L. change (len []) with 0 in L. lia.
  - intros ->. apply length_zero_iff_nil. unfold len in L. lia.
Qed.

(** X7. [link] with a URL given writes the link around the selected text
    and, on an empty selection, around the placeholder text; the caret is
    put after the link. *)
Theorem link_insertion (P : Prompts) (doc : list N) (s e : Z) (u : list N) :
  validRange doc s e -> url P = Some u -> u <> [] ->
  applyFormat P doc s e link
  = Returns
      (blockShape doc s e
         (lit "[" ++ (if s =? e then lit "link text" else substring doc s e)
            ++ lit "](" ++ u ++ lit ")")).
Proof.
  intros V Hu Hne. cbn [applyFormat]. unfold finish, linkEdit, blockShape, selection.
  cbn [newText newSelectionStart newSelectionEnd].
  rewrite Hu, truthy_some by exact Hne. cbn [toString].
  destruct (Z.eqb_spec s e) as [E | E].
  - replace (substring doc s e) with (@nil N)
      by (symmetry; apply substring_empty_iff; assumption).
    reflexivity.
  - rewrite orElse_some; [reflexivity |].
    intros H. apply E. apply (substring_empty_iff doc s e V). exact H.
Qed.

Lemma link_insertion_witness :
  applyFormat
    {| url := Some (lit "x.org"); imgUrl := None; altText := None;
       width := None; colsAnswer := None; rowsAnswer := None |}
    (lit "see") 3 3 link
  = Returns {| newMarkdown := lit "see[link text](x.org)";
               newSelection := {| start := 21; end_ := 21 |} |}.
Proof.
  refine (link_insertion
            {| url := Some (lit "x.org"); imgUrl := None; altText := None;
               width := None; colsAnswer := None; rowsAnswer := None |}
            (lit "see") 3 3 (lit "x.org") _ eq_refl _).
  - unfold validRange. vm_compute. intuition discriminate.
  - discriminate.
Defined.

(** ** Lines *)

Lemma split_lines_noNL (s : list N) : Forall (fun l => ~ In NL l) (split NL s).
Proof.
  induction s as [| c s IH]; [repeat constructor; intros [] |].
  cbn [split]. destruct (N.eqb_spec c NL) as [-> | Hc].
  - constructor; [intros [] | exact IH].
  - destruct (split NL s) as [| l ls]; [repeat constructor; intros [H | []]; auto |].
    inversion IH as [| ? ? Hl Hls]; subst. constructor; [| exact Hls].
    intros [H | H]; [auto | exact (Hl H)].
Qed.

Lemma split_line (x : list N) : ~ In NL x -> split NL x = [x].
Proof.
  induction x as [| c x IH]; intros H; [reflexivity |].
  cbn [split]. destruct (N.eqb_spec c NL) as [-> | Hc].
  - exfalso. apply H. left. reflexivity.
  - rewrite IH; [reflexivity |]. intros Hx. apply H. right. exact Hx.
Qed.

Lemma split_app_NL (x rest : list N) :
  ~ In NL x -> split NL (x ++ NL :: rest) = x :: split NL rest.
Proof.
  induction x as [| c x IH]; intros H; [reflexivity |].
  cbn [app split]. destruct (N.eqb_spec c NL) as [-> | Hc].
  - exfalso. apply H. left. reflexivity.
  - rewrite IH; [reflexivity |]. intros Hx. apply H. right. exact Hx.
Qed.

(** Lines without newline, joined and split again, are these lines. *)
Lemma split_join (ls : list (list N)) :
  ls <> [] -> Forall (fun l => ~ In NL l) ls -> split NL (join [NL] ls) = ls.
Proof.
  induction ls as [| x ls IH]; intros Hne H; [congruence |].
  inversion H as [| ? ? Hx Hls]; subst.
  destruct ls as [| y ls].
  - cbn [join]. apply split_line. exact Hx.
  - rewrite join_cons by discriminate. cbn [app].
    rewrite split_app_NL by exact Hx. f_equal. apply IH; [discriminate | exact Hls].
Qed.

Lemma in_skipn_in {A : Type} (n : nat) (l : list A) (x : A) :
  In x (skipn n l) -> In x l.
Proof.
  intros H. rewrite <- (firstn_skipn n l). apply in_or_app. right. exact H.
Qed.

Lemma replace_In (l p : list N) (c : N) : In c (replace l p []) -> In c l.
Proof.
  induction l as [| x l IH]; cbn [replace].
  - destruct (startsWith [] p); [| intros []].
    cbn [app]. apply in_skipn_in.
  - destruct (startsWith (x :: l) p).
    + cbn [app]. apply in_skipn_in.
    + intros [H | H]; [left; exact H | right; exact (IH H)].
Qed.

Lemma spanDigits_eq (s : list N) :
  s = fst (spanDigits s) ++ snd (spanDigits s)
  /\ forallb isDigit (fst (spanDigits s)) = true.
Proof.
  induction s as [| c s (E & D)]; [split; reflexivity |].
  cbn [spanDigits]. destruct (isDigit c) eqn:Hc; [| split; reflexivity].
  destruct (spanDigits s) as (d, r). cbn [fst snd] in *. split.
  - cbn [app]. f_equal. exact E.
  - cbn [forallb]. rewrite Hc, D. reflexivity.
Qed.

Lemma replaceNumbered_In (l : list N) (c : N) :
  In c (replaceNumbered l) -> In c l.
Proof.
  unfold replaceNumbered, matchNumbered.
  destruct (spanDigits_eq l) as (E & _).
  destruct (spanDigits l) as (d, r). cbn [fst snd] in E.
  destruct d as [| d0 d]; [auto |].
  destruct r as [| dot [| sp rest]]; auto.
  destruct (N.eqb dot 46 && isWhiteSpace sp); [| auto].
  intros H. rewrite E. apply in_or_app. right. right. right. exact H.
Qed.

(** The decimal writing of a positive integer: digits, at least one. *)
Lemma numberToString_digits (z : Z) :
  0 < z ->
  numberToString z <> [] /\ forallb isDigit (numberToString z) = true.
Proof.
  intros Hz. destruct z as [| p | p]; try lia. unfold numberToString.
  split; [| apply uintCodes_digits].
  pose proof (digitsValue_uint (Pos.to_uint p)) as Hv.
  rewrite DecimalPos.Unsigned.of_to in Hv. cbn [Z.of_N] in Hv.
  intros E. rewrite E in Hv. discriminate.
Qed.

Lemma digits_noNL (d : list N) : forallb isDigit d = true -> ~ In NL d.
Proof.
  intros H Hin. rewrite forallb_forall in H. specialize (H NL Hin).
  discriminate.
Qed.

(** A numbered line is read back: the number, then the line. *)
Lemma matchNumbered_numbered (d l : list N) :
  d <> [] -> forallb isDigit d = true ->
  matchNumbered (d ++ lit ". " ++ l) = Some l.
Proof.
  intros Hne Hd. unfold matchNumbered.
  rewrite spanDigits_app by (assumption || reflexivity).
  destruct d; [congruence | reflexivity].
Qed.

Lemma trim_numbered (d l : list N) :
  d <> [] -> forallb isDigit d = true -> trim l <> [] ->
  trim (d ++ lit ". " ++ l) = d ++ lit ". " ++ trimEnd l.
Proof.
  intros Hne Hd Hl. unfold trim at 1.
  destruct d as [| c d]; [congruence |].
  cbn [forallb] in Hd. apply andb_true_iff in Hd as (Hc & _).
  destruct (isDigit_cases c Hc) as (Hws & _).
  cbn [app trimStart]. rewrite Hws.
  change (c :: d ++ lit ". " ++ l) with ((c :: d) ++ lit ". " ++ l).
  rewrite (app_assoc (c :: d)), trimEnd_app, <- app_assoc; [reflexivity |].
  destruct (forallb isWhiteSpace l) eqn:E; [| reflexivity].
  apply trim_nil in E. congruence.
Qed.

(** The lines [ol] writes: line [i], counted from [k], gets the number
    [i + 1]. *)
Lemma nth_error_numbered (k : nat) (lines : list (list N)) (i : nat) (l : list N) :
  nth_error lines i = Some l ->
  nth_error
    (map (fun il : nat * list N =>
            numberToString (Z.of_nat (fst il) + 1) ++ lit ". " ++ snd il)
       (combine (seq k (length lines)) lines)) i
  = Some (numberToString (Z.of_nat (k + i) + 1) ++ lit ". " ++ l).
Proof.
  revert k i. induction lines as [| x lines IH]; intros k i H.
  - destruct i; discriminate H.
  - destruct i as [| i]; cbn [length seq combine map nth_error] in *.
    + injection H as ->. rewrite Nat.add_0_r. reflexivity.
    + rewrite (IH (S k) i H). do 4 f_equal. lia.
Qed.

Lemma numbered_lines_shape (k : nat) (lines : list (list N)) :
  Forall2 (fun l l' =>
             exists d, l' = d ++ lit ". " ++ l /\ d <> []
                       /\ forallb isDigit d = true)
    lines
    (map (fun il : nat * list N =>
            numberToString (Z.of_nat (fst il) + 1) ++ lit ". " ++ snd il)
       (combine (seq k (length lines)) lines)).
Proof.
  revert k. induction lines as [| x lines IH]; intros k;
    cbn [length seq combine map]; constructor; [| apply IH].
  cbn [fst snd]. eexists. split; [reflexivity |].
  apply numberToString_digits. lia.
Qed.

(** ** The list actions *)

Lemma ul_returns (P : Prompts) (doc : list N) (s e : Z) :
  applyFormat P doc s e ul
  = Returns
      {| newMarkdown :=
           substring doc 0 s ++ lineFormattingText (lit "- ") (substring doc s e)
             ++ substringFrom doc e;
         newSelection :=
           {| start := s;
              end_ := s + len (lineFormattingText (lit "- ") (substring doc s e)) |} |}.
Proof. reflexivity. Qed.

Lemma ol_returns (P : Prompts) (doc : list N) (s e : Z) :
  applyFormat P doc s e ol
  = Returns
      {| newMarkdown :=
           substring doc 0 s ++ orderedListText (substring doc s e)
             ++ substringFrom doc e;
         newSelection :=
           {| start := s;
              end_ := s + len (orderedListText (substring doc s e)) |} |}.
Proof. reflexivity. Qed.

(** The text written over a selection, selected again. *)
Lemma replaced_again (doc : list N) (s e : Z) (text : list N) :
  validRange doc s e ->
  substring (substring doc 0 s ++ text ++ substringFrom doc e) s (s + len text)
  = text
  /\ substring (substring doc 0 s ++ text ++ substringFrom doc e) 0 s
     = substring doc 0 s
  /\ substringFrom (substring doc 0 s ++ text ++ substringFrom doc e)
       (s + len text)
     = substringFrom doc e.
Proof.
  intros (Hs & Hse & He).
  assert (L : len (substring doc 0 s) = s)
    by (rewrite len_substring by lia; lia).
  split; [| split].
  - pose proof (substring_mid (substring doc 0 s) text (substringFrom doc e)) as M.
    rewrite L in M. exact M.
  - pose proof (substring_pre (substring doc 0 s) (text ++ substringFrom doc e)) as M.
    rewrite L in M. exact M.
  - pose proof (substringFrom_post (substring doc 0 s ++ text) (substringFrom doc e)) as M.
    rewrite len_app, L, <- app_assoc in M. exact M.
Qed.

Lemma Forall_map_noNL (f : list N -> list N) (ls : list (list N)) :
  (forall l, ~ In NL l -> ~ In NL (f l)) ->
  Forall (fun l => ~ In NL l) ls -> Forall (fun l => ~ In NL l) (map f ls).
Proof.
  intros Hf H. induction H; cbn [map]; constructor; auto.
Qed.

Lemma numberLines_noNL (lines : list (list N)) :
  Forall (fun l => ~ In NL l) lines ->
  Forall (fun l => ~ In NL l) (numberLines lines).
Proof.
  intros H. unfold numberLines.
  pose proof (numbered_lines_shape 0 lines) as S.
  induction S as [| l l' ls ls' (d & -> & _ & Hd) _ IH]; [constructor |].
  inversion H as [| ? ? Hl Hls]; subst. constructor; [| apply IH; exact Hls].
  intros Hin. apply in_app_or in Hin as [Hin | Hin].
  - exact (digits_noNL d Hd Hin).
  - destruct Hin as [Hin | [Hin | Hin]]; [discriminate | discriminate | auto].
Qed.

Lemma numberLines_length (lines : list (list N)) :
  length (numberLines lines) = length lines.
Proof.
  unfold numberLines.
  rewrite length_map, length_combine, length_seq. apply Nat.min_id.
Qed.

Lemma numberLines_nonempty (lines : list (list N)) :
  lines <> [] -> numberLines lines <> [].
Proof.
  intros H E. apply (f_equal (@length (list N))) in E.
  rewrite numberLines_length in E. destruct lines; [congruence | discriminate].
Qed.

Lemma map_nonempty {A B : Type} (f : A -> B) (l : list A) :
  l <> [] -> map f l <> [].
Proof. destruct l; [congruence | discriminate]. Qed.

(** The lines of the text a list action writes are as many as the lines
    selected. *)
Lemma lineFormattingText_lines (sel : list N) :
  length (split NL (lineFormattingText (lit "- ") sel)) = length (split NL sel).
Proof.
  unfold lineFormattingText.
  pose proof (split_lines_noNL sel) as Hn.
  pose proof (split_nonempty NL sel) as Hne.
  destruct (forallb _ (split NL sel));
    (rewrite split_join; [apply length_map | apply map_nonempty; exact Hne |]);
    apply Forall_map_noNL; try exact Hn.
  - intros l Hl Hin. apply Hl. exact (replace_In l _ NL Hin).
  - intros l Hl. destruct (startsWith (trim l) (lit "- ")); [exact Hl |].
    intros [Hin | [Hin | Hin]]; [discriminate | discriminate | auto].
Qed.

Lemma orderedListText_lines (sel : list N) :
  length (split NL (orderedListText sel)) = length (split NL sel).
Proof.
  unfold orderedListText.
  pose proof (split_lines_noNL sel) as Hn.
  pose proof (split_nonempty NL sel) as Hne.
  destruct (forallb _ (split NL sel)).
  - rewrite split_join; [apply length_map | apply map_nonempty; exact Hne |].
    apply Forall_map_noNL; [| exact Hn].
    intros l Hl Hin. apply Hl. exact (replaceNumbered_In l NL Hin).
  - rewrite split_join;
      [apply numberLines_length | apply numberLines_nonempty; exact Hne |].
    apply numberLines_noNL. exact Hn.
Qed.

(** X8. The list actions keep the lines: after [ul] and after [ol] the
    selection returned starts where the old one did and selects exactly the
    text written in its place, and that text has as many lines as the text
    that was selected. *)
Theorem list_actions_keep_lines (P : Prompts) (doc : list N) (s e : Z)
    (format : FormatAction) :
  validRange doc s e -> format = ul \/ format = ol ->
  exists r,
    applyFormat P doc s e format = Returns r
    /\ start (newSelection r) = s
    /\ newMarkdown r
       = substring doc 0 s
           ++ substring (newMarkdown r)
                (start (newSelection r)) (end_ (newSelection r))
           ++ substringFrom doc e
    /\ length (split NL (substring (newMarkdown r)
                           (start (newSelection r)) (end_ (newSelection r))))
       = length (split NL (substring doc s e)).
Proof.
  intros V [-> | ->]; [rewrite ul_returns | rewrite ol_returns];
    (eexists; split; [reflexivity |]);
    cbn [newMarkdown newSelection start end_];
    match goal with
    | |- context [s + len ?t] =>
        destruct (replaced_again doc s e t V) as (-> & _ & _)
    end;
    (split; [reflexivity | split; [reflexivity |]]).
  - apply lineFormattingText_lines.
  - apply orderedListText_lines.
Qed.

Lemma list_actions_keep_lines_witness :
  exists r,
    applyFormat cancelled (lit "x" ++ NL :: lit "y") 0 3 ol = Returns r
    /\ start (newSelection r) = 0
    /\ newMarkdown r
       = substring (lit "x" ++ NL :: lit "y") 0 0
           ++ substring (newMarkdown r)
                (start (newSelection r)) (end_ (newSelection r))
           ++ substringFrom (lit "x" ++ NL :: lit "y") 3
    /\ length (split NL (substring (newMarkdown r)
                           (start (newSelection r)) (end_ (newSelection r))))
       = length (split NL (substring (lit "x" ++ NL :: lit "y") 0 3)).
Proof.
  apply (list_actions_keep_lines cancelled (lit "x" ++ NL :: lit "y") 0 3 ol).
  - unfold validRange. vm_compute. intuition discriminate.
  - right. reflexivity.
Defined.

Lemma Forall2_map_back {A B : Type} (R : A -> B -> Prop) (f : B -> A)
    (l : list A) (l' : list B) :
  Forall2 R l l' -> (forall x y, In x l -> R x y -> f y = x) -> map f l' = l.
Proof.
  intros H. induction H as [| x y l l' Hxy _ IH]; intros Hf; [reflexivity |].
  cbn [map]. f_equal.
  - apply Hf; [left; reflexivity | exact Hxy].
  - apply IH. intros a b Ha. apply Hf. right. exact Ha.
Qed.

Lemma Forall2_forallb {A B : Type} (R : A -> B -> Prop) (g : B -> bool)
    (l : list A) (l' : list B) :
  Forall2 R l l' -> (forall x y, In x l -> R x y -> g y = true) ->
  forallb g l' = true.
Proof.
  intros H. induction H as [| x y l l' Hxy _ IH]; intros Hg; [reflexivity |].
  cbn [forallb]. rewrite (Hg x y); [| left; reflexivity | exact Hxy].
  apply IH. intros a b Ha. apply Hg. right. exact Ha.
Qed.

(** [ul] on lines none of which has the prefix, and again on what it
    wrote. *)
Lemma lineFormattingText_twice (sel : list N) :
  (forall l, In l (split NL sel) ->
     trim l <> [] /\ startsWith (trim l) (lit "- ") = false) ->
  lineFormattingText (lit "- ") sel
  = join [NL] (map (fun l => lit "- " ++ l) (split NL sel))
  /\ lineFormattingText (lit "- ") (lineFormattingText (lit "- ") sel) = sel.
Proof.
  intros H.
  pose proof (split_lines_noNL sel) as Hn.
  pose proof (split_nonempty NL sel) as Hne.
  assert (E1 : lineFormattingText (lit "- ") sel
               = join [NL] (map (fun l => lit "- " ++ l) (split NL sel))).
  { unfold lineFormattingText.
    destruct (split NL sel) as [| l0 ls] eqn:El; [congruence |].
    destruct (H l0 (or_introl eq_refl)) as (_ & H0).
    cbn [forallb]. rewrite H0. cbn [andb]. f_equal.
    apply map_ext_in. intros l Hl. destruct (H l Hl) as (_ & ->). reflexivity. }
  split; [exact E1 |]. rewrite E1. unfold lineFormattingText.
  rewrite split_join.
  - replace (forallb _ (map (fun l => lit "- " ++ l) (split NL sel))) with true.
    + rewrite map_map. rewrite <- (join_split sel) at 2. f_equal.
      rewrite <- (map_id (split NL sel)) at 2. apply map_ext.
      intros l. exact (replace_self_app (lit "- ") l).
    + symmetry. apply forallb_forall. intros l' Hl'.
      apply in_map_iff in Hl' as (l & <- & Hl). destruct (H l Hl) as (Hb & _).
      exact (startsWith_trim_prefixed l [32%N] 45%N eq_refl Hb).
  - apply map_nonempty. exact Hne.
  - apply Forall_map_noNL; [| exact Hn].
    intros l Hl [Hin | [Hin | Hin]]; [discriminate | discriminate | auto].
Qed.

(** X9. [ul] is a toggle on lines that have a text and no bullet: when no
    selected line is blank and the trimmed text of none starts with the
    dash and space, [ul] puts the prefix before every line, and [ul] again
    at the selection returned restores the document and the selection. *)
Theorem unordered_list_round_trip (P : Prompts) (doc : list N) (s e : Z) :
  validRange doc s e ->
  (forall l, In l (split NL (substring doc s e)) ->
     trim l <> [] /\ startsWith (trim l) (lit "- ") = false) ->
  exists r1 r2,
    applyFormat P doc s e ul = Returns r1
    /\ newMarkdown r1
       = substring doc 0 s
           ++ join [NL] (map (fun l => lit "- " ++ l)
                           (split NL (substring doc s e)))
           ++ substringFrom doc e
    /\ applyFormat P (newMarkdown r1)
         (start (newSelection r1)) (end_ (newSelection r1)) ul
       = Returns r2
    /\ newMarkdown r2 = doc
    /\ newSelection r2 = {| start := s; end_ := e |}.
Proof.
  intros V H. destruct (lineFormattingText_twice _ H) as (E1 & E2).
  pose proof V as (Hs & Hse & He).
  rewrite ul_returns. eexists. eexists. split; [reflexivity |].
  cbn [newMarkdown newSelection start end_]. rewrite ul_returns.
  destruct (replaced_again doc s e
              (lineFormattingText (lit "- ") (substring doc s e)) V)
    as (-> & -> & ->).
  rewrite E2. split; [rewrite E1; reflexivity |].
  split; [reflexivity |]. cbn [newMarkdown newSelection]. split.
  - symmetry. apply substring_split3; assumption.
  - rewrite len_substring by assumption. f_equal. lia.
Qed.

Lemma unordered_list_round_trip_witness :
  exists r1 r2,
    applyFormat cancelled (lit "a" ++ NL :: lit "b") 0 3 ul = Returns r1
    /\ newMarkdown r1
       = substring (lit "a" ++ NL :: lit "b") 0 0
           ++ join [NL] (map (fun l => lit "- " ++ l)
                           (split NL (substring (lit "a" ++ NL :: lit "b") 0 3)))
           ++ substringFrom (lit "a" ++ NL :: lit "b") 3
    /\ applyFormat cancelled (newMarkdown r1)
         (start (newSelection r1)) (end_ (newSelection r1)) ul
       = Returns r2
    /\ newMarkdown r2 = lit "a" ++ NL :: lit "b"
    /\ newSelection r2 = {| start := 0; end_ := 3 |}.
Proof.
  apply (unordered_list_round_trip cancelled (lit "a" ++ NL :: lit "b") 0 3).
  - unfold validRange. vm_compute. intuition discriminate.
  - intros l Hl. vm_compute in Hl.
    destruct Hl as [<- | [<- | []]]; (split; [vm_compute; discriminate | reflexivity]).
Defined.

Lemma digitsValue_numberToString (z : Z) :
  0 < z -> digitsValue (numberToString z) = z.
Proof.
  intros Hz. destruct z as [| p | p]; try lia. unfold numberToString.
  rewrite digitsValue_uint, DecimalPos.Unsigned.of_to. reflexivity.
Qed.

(** [ol] on lines not all numbered, and again on what it wrote. *)
Lemma orderedListText_twice (sel : list N) :
  forallb (fun line => testNumbered (trim line)) (split NL sel) = false ->
  (forall l, In l (split NL sel) -> trim l <> []) ->
  orderedListText sel = join [NL] (numberLines (split NL sel))
  /\ orderedListText (orderedListText sel) = sel.
Proof.
  intros Hnot H.
  pose proof (split_lines_noNL sel) as Hn.
  pose proof (split_nonempty NL sel) as Hne.
  assert (E1 : orderedListText sel = join [NL] (numberLines (split NL sel)))
    by (unfold orderedListText; rewrite Hnot; reflexivity).
  split; [exact E1 |]. rewrite E1. unfold orderedListText.
  rewrite split_join;
    [| apply numberLines_nonempty; exact Hne | apply numberLines_noNL; exact Hn].
  pose proof (numbered_lines_shape 0 (split NL sel)) as S.
  fold (numberLines (split NL sel)) in S.
  replace (forallb _ (numberLines (split NL sel))) with true.
  - rewrite <- (join_split sel) at 2. f_equal.
    apply (Forall2_map_back _ _ _ _ S).
    intros l l' _ (d & -> & Hd & Hdd). unfold replaceNumbered.
    rewrite matchNumbered_numbered by assumption. reflexivity.
  - symmetry. apply (Forall2_forallb _ _ _ _ S).
    intros l l' Hl (d & -> & Hd & Hdd). unfold testNumbered.
    rewrite trim_numbered by (try assumption; apply H; exact Hl).
    rewrite matchNumbered_numbered by assumption. reflexivity.
Qed.

(** X10. [ol] is a toggle on lines that have a text and are not all
    numbered: [ol] numbers them, line [i], counted from 0, becoming the
    decimal writing of [i + 1], a dot, a space and the line, the numbered
    lines joined in place of the selection; and [ol] again at the selection
    returned restores the document and the selection. *)
Theorem ordered_list_round_trip (P : Prompts) (doc : list N) (s e : Z) :
  validRange doc s e ->
  forallb (fun line => testNumbered (trim line))
    (split NL (substring doc s e)) = false ->
  (forall l, In l (split NL (substring doc s e)) -> trim l <> []) ->
  exists r1 r2 newLines,
    applyFormat P doc s e ol = Returns r1
    /\ newMarkdown r1
       = substring doc 0 s ++ join [NL] newLines ++ substringFrom doc e
    /\ newSelection r1
       = {| start := s; end_ := s + len (join [NL] newLines) |}
    /\ length newLines = length (split NL (substring doc s e))
    /\ (forall i l,
          nth_error (split NL (substring doc s e)) i = Some l ->
          nth_error newLines i
          = Some (numberToString (Z.of_nat i + 1) ++ lit ". " ++ l))
    /\ applyFormat P (newMarkdown r1)
         (start (newSelection r1)) (end_ (newSelection r1)) ol
       = Returns r2
    /\ newMarkdown r2 = doc
    /\ newSelection r2 = {| start := s; end_ := e |}.
Proof.
  intros V Hnot H. destruct (orderedListText_twice _ Hnot H) as (E1 & E2).
  pose proof V as (Hs & Hse & He).
  rewrite ol_returns. eexists. eexists.
  exists (numberLines (split NL (substring doc s e))).
  split; [reflexivity |].
  cbn [newMarkdown newSelection start end_]. rewrite ol_returns.
  destruct (replaced_again doc s e (orderedListText (substring doc s e)) V)
    as (-> & -> & ->).
  rewrite E2, E1.
  split; [reflexivity |]. split; [reflexivity |].
  split; [apply numberLines_length |].
  split.
  { intros i l Hi. unfold numberLines.
    rewrite (nth_error_numbered 0 _ i l Hi). reflexivity. }
  split; [reflexivity |]. cbn [newMarkdown newSelection]. split.
  - symmetry. apply substring_split3; assumption.
  - rewrite len_substring by assumption. f_equal. lia.
Qed.

Lemma ordered_list_round_trip_witness :
  exists r1 r2,
    applyFormat cancelled (lit "a" ++ NL :: lit "2. b") 0 6 ol = Returns r1
    /\ newMarkdown r1 = lit "1. a" ++ NL :: lit "2. 2. b"
    /\ applyFormat cancelled (newMarkdown r1)
         (start (newSelection r1)) (end_ (newSelection r1)) ol
       = Returns r2
    /\ newMarkdown r2 = lit "a" ++ NL :: lit "2. b"
    /\ newSelection r2 = {| start := 0; end_ := 6 |}.
Proof.
  destruct (ordered_list_round_trip cancelled
              (lit "a" ++ NL :: lit "2. b") 0 6)
    as (r1 & r2 & newLines & H1 & _ & _ & _ & _ & H2 & H3 & H4).
  - unfold validRange. vm_compute. intuition discriminate.
  - reflexivity.
  - intros l Hl. vm_compute in Hl.
    destruct Hl as [<- | [<- | []]]; vm_compute; discriminate.
  - exists r1, r2. split; [exact H1 |].
    split; [injection H1 as <-; reflexivity |].
    split; [exact H2 | split; [exact H3 | exact H4]].
Defined.

(** X11. [ol] on lines that are not all numbered numbers every line in
    order from 1, whatever number a line had: line [i], counted from 0,
    becomes the decimal writing of [i + 1], a dot, a space and the line as it
    was, and [parseInt] reads [i + 1] back from it. *)
Theorem ordered_list_numbers_from_one (P : Prompts) (doc : list N) (s e : Z) :
  forallb (fun line => testNumbered (trim line))
    (split NL (substring doc s e)) = false ->
  exists newLines,
    applyFormat P doc s e ol
    = Returns
        {| newMarkdown :=
             substring doc 0 s ++ join [NL] newLines ++ substringFrom doc e;
           newSelection :=
             {| start := s; end_ := s + len (join [NL] newLines) |} |}
    /\ length newLines = length (split NL (substring doc s e))
    /\ forall i l,
         nth_error (split NL (substring doc s e)) i = Some l ->
         nth_error newLines i
         = Some (numberToString (Z.of_nat i + 1) ++ lit ". " ++ l)
         /\ parseInt (numberToString (Z.of_nat i + 1) ++ lit ". " ++ l)
            = Some (Z.of_nat i + 1).
Proof.
  intros Hnot. exists (numberLines (split NL (substring doc s e))).
  split; [| split].
  - rewrite ol_returns. unfold orderedListText. rewrite Hnot. reflexivity.
  - apply numberLines_length.
  - intros i l Hi. split.
    + unfold numberLines. rewrite (nth_error_numbered 0 _ i l Hi). reflexivity.
    + destruct (numberToString_digits (Z.of_nat i + 1) ltac:(lia)) as (Hne & Hd).
      rewrite parseInt_leading_digits by (assumption || reflexivity).
      rewrite digitsValue_numberToString by lia. reflexivity.
Qed.

Lemma ordered_list_numbers_from_one_witness :
  exists newLines,
    applyFormat cancelled (lit "7. x" ++ NL :: lit "y") 0 6 ol
    = Returns
        {| newMarkdown :=
             substring (lit "7. x" ++ NL :: lit "y") 0 0 ++ join [NL] newLines
               ++ substringFrom (lit "7. x" ++ NL :: lit "y") 6;
           newSelection :=
             {| start := 0; end_ := 0 + len (join [NL] newLines) |} |}
    /\ nth_error newLines 0 = Some (lit "1. 7. x")
    /\ nth_error newLines 1 = Some (lit "2. y").
Proof.
  destruct (ordered_list_numbers_from_one cancelled
              (lit "7. x" ++ NL :: lit "y") 0 6 eq_refl)
    as (newLines & E & _ & H).
  exists newLines. split; [exact E |]. split.
  - exact (proj1 (H 0%nat (lit "7. x") eq_refl)).
  - exact (proj1 (H 1%nat (lit "y") eq_refl)).
Defined.

(** ** More on the headings *)

(** X12. A heading action with the caret at offset 0 of a document that
    starts with a newline does not write its prefix on the empty first
    line: [lastIndexOf] is asked from position -1 and finds the newline at
    offset 0, so the prefix is written after that newline, followed by
    another newline and the whole document again. *)
Theorem heading_at_leading_newline (P : Prompts) (q : list N) (e : Z)
    (format : FormatAction) (prefix : list N) :
  headingPrefix format = Some prefix ->
  applyFormat P (NL :: q) 0 e format
  = Returns
      {| newMarkdown := [NL] ++ prefix ++ [NL] ++ NL :: q;
         newSelection := {| start := len prefix; end_ := e + len prefix |} |}.
Proof.
  intros Hp.
  destruct (headingPrefix_facts format prefix Hp) as ((p & ->) & _ & _ & Happ).
  rewrite Happ. unfold prefixLine.
  destruct (line_at_leading_newline q) as (Es & Ee & El).
  rewrite El, Es, Ee.
  change (startsWith (trim [NL]) (35%N :: p)) with false. cbv iota.
  rewrite substringFrom_valid by (pose proof (len_nonneg (NL :: q)); lia).
  replace (substring (NL :: q) 0 1) with [NL]; [reflexivity |].
  rewrite substring_head; [reflexivity | lia |].
  unfold len. cbn [length]. lia.
Qed.

Lemma heading_at_leading_newline_witness :
  applyFormat cancelled (NL :: lit "abc") 0 0 h2
  = Returns
      {| newMarkdown := [NL] ++ lit "## " ++ [NL] ++ NL :: lit "abc";
         newSelection := {| start := 3; end_ := 3 |} |}.
Proof.
  exact (heading_at_leading_newline cancelled (lit "abc") 0 h2 (lit "## ")
           eq_refl).
Defined.

Lemma trimStart_id (c : N) (l : list N) :
  isWhiteSpace c = false -> trimStart (c :: l) = c :: l.
Proof. intros H. cbn [trimStart]. rewrite H. reflexivity. Qed.

(** Two heading prefixes that start the same text are the same prefix. *)
Lemma heading_prefixes_differ (f1 f2 : FormatAction) (p1 p2 line : list N) :
  headingPrefix f1 = Some p1 -> headingPrefix f2 = Some p2 -> f1 <> f2 ->
  startsWith line p1 = true -> startsWith line p2 = false.
Proof.
  intros H1 H2 Hne Hl. apply startsWith_iff in Hl as (rest & ->).
  destruct f1; try discriminate H1; injection H1 as <-;
    destruct f2; try discriminate H2; injection H2 as <-;
    try congruence; reflexivity.
Qed.

(** X13. Heading levels do not replace one another: on a line that starts
    with the prefix of one heading level, the action of another level adds
    its own prefix before it and removes nothing. *)
Theorem heading_levels_stack (P : Prompts) (doc : list N) (s e : Z)
    (f1 f2 : FormatAction) (p1 p2 : list N) :
  headingPrefix f1 = Some p1 -> headingPrefix f2 = Some p2 -> f1 <> f2 ->
  startsWith (currentLine doc s) p1 = true ->
  applyFormat P doc s e f2
  = Returns
      {| newMarkdown :=
           substring doc 0 (lineStart doc s) ++ p2 ++ currentLine doc s
             ++ substringFrom doc (lineEnd doc s);
         newSelection := {| start := s + len p2; end_ := e + len p2 |} |}.
Proof.
  intros H1 H2 Hne Hl.
  destruct (headingPrefix_facts f2 p2 H2) as (_ & _ & _ & Happ).
  destruct (headingPrefix_facts f1 p1 H1) as ((q1 & E1) & _).
  rewrite Happ. unfold prefixLine.
  replace (startsWith (trim (currentLine doc s)) p2) with false; [reflexivity |].
  symmetry. destruct (startsWith (trim (currentLine doc s)) p2) eqn:E;
    [| reflexivity].
  apply startsWith_trim in E.
  pose proof Hl as Hl'. apply startsWith_iff in Hl' as (rest & El).
  rewrite El, E1 in E. cbn [app] in E.
  rewrite trimStart_id in E by reflexivity.
  change (35%N :: q1 ++ rest) with ((35%N :: q1) ++ rest) in E.
  rewrite <- E1, <- El in E.
  rewrite (heading_prefixes_differ f1 f2 p1 p2 _ H1 H2 Hne Hl) in E.
  discriminate E.
Qed.

Lemma heading_levels_stack_witness :
  applyFormat cancelled (lit "# abc") 5 5 h2
  = Returns {| newMarkdown := lit "## # abc";
               newSelection := {| start := 8; end_ := 8 |} |}.
Proof.
  refine (heading_levels_stack cancelled (lit "# abc") 5 5 h1 h2
            (lit "# ") (lit "## ") eq_refl eq_refl _ eq_refl).
  discriminate.
Defined.

(** A range behind an insertion, moved by the length of what is inserted. *)
Lemma substring_shift (pre ins rest : list N) (a b : Z) :
  len pre <= a -> a <= b -> b <= len pre + len rest ->
  substring (pre ++ ins ++ rest) (a + len ins) (b + len ins)
  = substring (pre ++ rest) a b.
Proof.
  intros Ha Hab Hb.
  pose proof (len_nonneg pre) as Lp. pose proof (len_nonneg ins) as Li.
  rewrite !substring_valid by (rewrite ?len_app; lia).
  replace (b + len ins - (a + len ins)) with (b - a) by lia. f_equal.
  rewrite !skipn_app.
  rewrite (skipn_all2 pre (n := Z.to_nat (a + len ins)))
    by (unfold len in *; lia).
  rewrite (skipn_all2 pre (n := Z.to_nat a)) by (unfold len in *; lia).
  rewrite (skipn_all2 ins) by (unfold len in *; lia). cbn [app].
  f_equal. unfold len in *. lia.
Qed.

(** X14. A heading action that adds its prefix keeps the selected text
    selected: the selection returned holds, in the new document, the text
    that was selected, and the document grows by the prefix. The one
    exception is the caret at offset 0 of a document that starts with a
    newline, where the line start computed lies behind the caret. *)
Theorem heading_add_keeps_selected_text (P : Prompts) (doc : list N)
    (s e : Z) (format : FormatAction) (prefix : list N) :
  validRange doc s e ->
  headingPrefix format = Some prefix ->
  startsWith (trim (currentLine doc s)) prefix = false ->
  lineStart doc s <= s ->
  exists r,
    applyFormat P doc s e format = Returns r
    /\ substring (newMarkdown r)
         (start (newSelection r)) (end_ (newSelection r))
       = substring doc s e
    /\ len (newMarkdown r) = len doc + len prefix.
Proof.
  intros (Hs & Hse & He) Hp Hno Hls.
  destruct (headingPrefix_facts format prefix Hp) as (_ & _ & _ & Happ).
  destruct (lineAt_exists doc s Hs ltac:(lia)) as (pre & line & post & L).
  destruct (lineAt_cases doc s pre line post Hs L)
    as [Hq | (-> & -> & -> & q & Ed)].
  2:{ exfalso. subst doc.
      destruct (line_at_leading_newline q) as (Es & _). lia. }
  destruct (line_parts doc s pre line post L Hq) as (El & _ & _).
  rewrite Happ, (prefixLine_on_line doc s e prefix pre line post L Hq).
  rewrite El in Hno. rewrite Hno.
  destruct L as (Edoc & (Hs1 & Hs2) & _).
  eexists. split; [reflexivity |].
  cbn [newMarkdown newSelection start end_]. split.
  - rewrite Edoc. rewrite Edoc, !len_app in He.
    apply substring_shift; rewrite ?len_app; lia.
  - rewrite Edoc, !len_app. lia.
Qed.

Lemma heading_add_keeps_selected_text_witness :
  exists r,
    applyFormat cancelled (lit "a title") 2 7 h3 = Returns r
    /\ substring (newMarkdown r)
         (start (newSelection r)) (end_ (newSelection r))
       = substring (lit "a title") 2 7
    /\ len (newMarkdown r) = len (lit "a title") + len (lit "### ").
Proof.
  apply (heading_add_keeps_selected_text cancelled (lit "a title") 2 7 h3
           (lit "### ")).
  - unfold validRange. vm_compute. intuition discriminate.
  - reflexivity.
  - reflexivity.
  - vm_compute. discriminate.
Defined.

(** ** The handlers of the application *)

Lemma substring_caret (doc : list N) (a : Z) : substring doc a a = [].
Proof. unfold substring. rewrite Z.min_id, Z.max_id, Z.sub_diag. reflexivity. Qed.

(** X15. After [link], [image] and [table] nothing is selected: whenever
    [handleFormat] returns for one of them, the selection it keeps is
    [null]. *)
Theorem insert_actions_select_nothing (P : Prompts) (editor : option (Z * Z))
    (st st' : App.State) (format : FormatAction) :
  format = link \/ format = image \/ format = table ->
  editor <> None ->
  App.handleFormat P editor st format = Returns st' ->
  App.selection st' = None.
Proof.
  intros Hf He H. destruct editor as [(a, b) |]; [| congruence].
  unfold App.handleFormat in H.
  destruct Hf as [-> | [-> | ->]]; cbn [applyFormat bind] in H.
  - injection H as <-. cbn [App.selection finish newMarkdown newSelection
      start end_]. unfold App.handleSelect, linkEdit.
    cbn [newSelectionStart newSelectionEnd]. rewrite substring_caret. reflexivity.
  - injection H as <-. cbn [App.selection insert newMarkdown newSelection
      start end_]. unfold App.handleSelect.
    rewrite substring_caret. reflexivity.
  - destruct (tableText P (App.markdown st) a b) as [t |]; [| discriminate H].
    cbn [bind] in H. injection H as <-.
    cbn [App.selection insert newMarkdown newSelection start end_].
    unfold App.handleSelect. rewrite substring_caret. reflexivity.
Qed.

Lemma insert_actions_select_nothing_witness :
  App.selection
    {| App.markdown := lit "abc";
       App.selection := None;
       App.isLoading := false; App.modalContent := None |}
  = None.
Proof.
  apply (insert_actions_select_nothing cancelled (Some (0, 3))
           {| App.markdown := lit "abc";
              App.selection :=
                Some {| App.text := lit "abc"; App.selStart := 0;
                        App.selEnd := 3 |};
              App.isLoading := false; App.modalContent := None |}
           _ image).
  - right. left. reflexivity.
  - discriminate.
  - reflexivity.
Defined.

(** X16. After an inline wrap the application keeps the same text selected:
    [handleFormat] with [bold], [italic], [strikethrough] or [code] on a
    selection that is not empty ends with the selection state holding the
    text that was selected, at its new offsets; on a caret it ends with no
    selection. *)
Theorem wrap_keeps_selection_state (P : Prompts) (st : App.State) (s e : Z)
    (format : FormatAction) :
  validRange (App.markdown st) s e ->
  format = bold \/ format = italic \/ format = strikethrough \/ format = code ->
  exists st',
    App.handleFormat P (Some (s, e)) st format = Returns st'
    /\ (s < e ->
        exists sel,
          App.selection st' = Some sel
          /\ App.text sel = substring (App.markdown st) s e
          /\ App.text sel
             = substring (App.markdown st') (App.selStart sel) (App.selEnd sel)
          /\ App.selEnd sel - App.selStart sel = e - s)
    /\ (s = e -> App.selection st' = None).
Proof.
  intros V Hf. pose proof V as (Hs & Hse & He).
  assert (Hw : exists token,
             0 < len token
             /\ applyFormat P (App.markdown st) s e format
                = Returns (wrapShape (App.markdown st) s e token)).
  { destruct Hf as [-> | [-> | [-> | ->]]]; cbn [applyFormat];
      rewrite finish_wrap by assumption; eexists;
      (split; [| reflexivity]); reflexivity. }
  destruct Hw as (token & Ht & Hw). unfold App.handleFormat. rewrite Hw.
  cbn [bind]. eexists. split; [reflexivity |].
  cbn [App.selection App.markdown].
  destruct (wrapShape_keeps (App.markdown st) s e token V Ht) as (E & _ & _).
  unfold App.handleSelect. rewrite E. split.
  - intros Hlt.
    destruct (substring (App.markdown st) s e) as [| c t] eqn:Es.
    + exfalso. apply (substring_empty_iff _ s e V) in Es. lia.
    + eexists. split; [reflexivity |].
      cbn [App.text App.selStart App.selEnd wrapShape newSelection start end_].
      split; [reflexivity |]. split; [| lia].
      cbn [wrapShape newSelection start end_] in E. rewrite E. reflexivity.
  - intros Heq.
    replace (substring (App.markdown st) s e) with (@nil N); [reflexivity |].
    symmetry. apply substring_empty_iff; assumption.
Qed.

Lemma wrap_keeps_selection_state_witness :
  exists st',
    App.handleFormat cancelled (Some (2, 6))
      {| App.markdown := lit "a word"; App.selection := None;
         App.isLoading := false; App.modalContent := None |} bold
    = Returns st'
    /\ App.markdown st' = lit "a **word**"
    /\ exists sel,
         App.selection st' = Some sel /\ App.text sel = lit "word".
Proof.
  destruct (wrap_keeps_selection_state cancelled
              {| App.markdown := lit "a word"; App.selection := None;
                 App.isLoading := false; App.modalContent := None |}
              2 6 bold) as (st' & H & Hsel & _).
  - unfold validRange. vm_compute. intuition discriminate.
  - left. reflexivity.
  - exists st'. split; [exact H |]. split.
    + injection H as <-. reflexivity.
    + destruct (Hsel ltac:(lia)) as (sel & E1 & E2 & _).
      exists sel. split; [exact E1 | exact E2].
Defined.

(** X17. The three actions on a selection need one: with no selection, or a
    selection whose text is empty, [handleAiAction] shows the error modal,
    leaves the document and the selection as they are, ends the loading
    state, and does not depend on the AI service. *)
Theorem ai_action_needs_selection
    (run : App.AiAction -> list N -> option App.Options -> App.ServiceResult)
    (st : App.State) (action : App.AiAction) (options : option App.Options) :
  action = App.IMPROVE \/ action = App.SUMMARIZE_SELECTION
  \/ action = App.CHANGE_TONE ->
  App.selection st = None
  \/ (exists sel, App.selection st = Some sel /\ App.text sel = []) ->
  App.handleAiAction run st action options
  = {| App.markdown := App.markdown st;
       App.selection := App.selection st;
       App.isLoading := false;
       App.modalContent :=
         Some {| App.title := lit "Error";
                 App.content :=
                   lit "Please select text to perform this action." |} |}.
Proof.
  intros Ha Hsel. unfold App.handleAiAction, App.prepare.
  destruct Ha as [-> | [-> | ->]];
    (destruct Hsel as [-> | (sel & -> & ->)]; reflexivity).
Qed.

Lemma ai_action_needs_selection_witness :
  App.handleAiAction (fun _ t _ => App.Resolved t)
    {| App.markdown := lit "abc"; App.selection := None;
       App.isLoading := false; App.modalContent := None |}
    App.IMPROVE None
  = {| App.markdown := lit "abc"; App.selection := None;
       App.isLoading := false;
       App.modalContent :=
         Some {| App.title := lit "Error";
                 App.content :=
                   lit "Please select text to perform this action." |} |}.
Proof.
  apply (ai_action_needs_selection (fun _ t _ => App.Resolved t)
           {| App.markdown := lit "abc"; App.selection := None;
              App.isLoading := false; App.modalContent := None |}
           App.IMPROVE None).
  - left. reflexivity.
  - left. reflexivity.
Defined.

(** X18. What [handleAiAction] never does: it always ends with the loading
    state cleared and the selection state as it was; the three actions on
    the document never change the document, they send the whole document
    to the service and show its answer under their own title; and when the
    service rejects every call no action changes the document. *)
Theorem ai_action_keeps_document
    (run : App.AiAction -> list N -> option App.Options -> App.ServiceResult)
    (st : App.State) (action : App.AiAction) (options : option App.Options) :
  App.isLoading (App.handleAiAction run st action options) = false
  /\ App.selection (App.handleAiAction run st action options)
     = App.selection st
  /\ (action = App.SUMMARIZE_DOCUMENT \/ action = App.GENERATE_OUTLINE
      \/ action = App.SUGGEST_TITLES ->
      App.markdown (App.handleAiAction run st action options)
      = App.markdown st
      /\ forall r,
           run action (App.markdown st) options = App.Resolved r ->
           exists t,
             App.modalContent (App.handleAiAction run st action options)
             = Some {| App.title := t; App.content := r |}
             /\ t <> lit "AI Result"
             /\ (t = lit "Document Summary" <-> action = App.SUMMARIZE_DOCUMENT)
             /\ (t = lit "Generated Outline" <-> action = App.GENERATE_OUTLINE)
             /\ (t = lit "Suggested Titles" <-> action = App.SUGGEST_TITLES))
  /\ ((forall a t o, exists m, run a t o = App.Rejected m) ->
      App.markdown (App.handleAiAction run st action options)
      = App.markdown st).
Proof.
  split; [| split; [| split]].
  - unfold App.handleAiAction.
    destruct (App.prepare st action options) as [| | t b]; try reflexivity.
    destruct (run action t options); [| reflexivity].
    destruct b, (App.selection st), action; reflexivity.
  - unfold App.handleAiAction.
    destruct (App.prepare st action options) as [| | t b]; try reflexivity.
    destruct (run action t options); [| reflexivity].
    destruct b, (App.selection st), action; reflexivity.
  - intros Ha. unfold App.handleAiAction, App.prepare.
    destruct Ha as [-> | [-> | ->]];
      (split;
       [destruct (run _ (App.markdown st) options); reflexivity
       | intros r ->; eexists; split; [reflexivity |];
         repeat split; intros; (discriminate || reflexivity)]).
  - intros Hrej. unfold App.handleAiAction.
    destruct (App.prepare st action options) as [| | t b]; try reflexivity.
    destruct (Hrej action t options) as (m & ->). reflexivity.
Qed.

Lemma ai_action_keeps_document_witness :
  App.markdown
    (App.handleAiAction (fun _ _ _ => App.Rejected None)
       {| App.markdown := lit "abc";
          App.selection :=
            Some {| App.text := lit "b"; App.selStart := 1; App.selEnd := 2 |};
          App.isLoading := true; App.modalContent := None |}
       App.IMPROVE None)
  = lit "abc"
  /\ App.markdown
       (App.handleAiAction (fun _ t _ => App.Resolved t)
          {| App.markdown := lit "abc"; App.selection := None;
             App.isLoading := true; App.modalContent := None |}
          App.SUGGEST_TITLES None)
     = lit "abc".
Proof.
  split.
  - refine (proj2 (proj2 (proj2 (ai_action_keeps_document
              (fun _ _ _ => App.Rejected None) _ App.IMPROVE None))) _).
    intros a t o. exists None. reflexivity.
  - refine (proj1 (proj1 (proj2 (proj2 (ai_action_keeps_document
              (fun _ t _ => App.Resolved t) _ App.SUGGEST_TITLES None))) _)).
    right. right. reflexivity.
Defined.

(** X19. An action on the selection replaces the selection and nothing
    else: with the selection the editor reported for a range that is not
    empty, the service is sent the selected text, and its answer is written
    in place of that text, the text before and after it kept; an answer
    equal to the selected text leaves the document as it is. *)
Theorem ai_action_replaces_selection
    (run : App.AiAction -> list N -> option App.Options -> App.ServiceResult)
    (st : App.State) (action : App.AiAction) (options : option App.Options)
    (a b : Z) (r : list N) :
  action = App.IMPROVE \/ action = App.SUMMARIZE_SELECTION
  \/ action = App.CHANGE_TONE ->
  validRange (App.markdown st) a b -> a < b ->
  App.selection st = App.handleSelect (App.markdown st) a b ->
  run action (substring (App.markdown st) a b) options = App.Resolved r ->
  App.markdown (App.handleAiAction run st action options)
  = substring (App.markdown st) 0 a ++ r ++ substringFrom (App.markdown st) b
  /\ len (App.markdown (App.handleAiAction run st action options))
     = len (App.markdown st) - (b - a) + len r
  /\ (r = substring (App.markdown st) a b ->
      App.markdown (App.handleAiAction run st action options)
      = App.markdown st)
  /\ App.modalContent (App.handleAiAction run st action options)
     = App.modalContent st.
Proof.
  intros Ha V Hlt Hsel Hrun. pose proof V as (H0 & Hab & Hb).
  unfold App.handleSelect in Hsel.
  destruct (substring (App.markdown st) a b) as [| c t] eqn:Es.
  { exfalso. apply (substring_empty_iff _ a b V) in Es. lia. }
  assert (E : App.handleAiAction run st action options
              = {| App.markdown :=
                     substring (App.markdown st) 0 a ++ r
                       ++ substringFrom (App.markdown st) b;
                   App.selection := App.selection st;
                   App.isLoading := false;
                   App.modalContent := App.modalContent st |}).
  { unfold App.handleAiAction, App.prepare. rewrite Hsel.
    cbn [App.text App.selStart App.selEnd].
    destruct Ha as [-> | [-> | ->]]; rewrite Hrun; reflexivity. }
  rewrite E. cbn [App.markdown App.modalContent].
  split; [reflexivity | split; [| split; [| reflexivity]]].
  - rewrite (len_replaced _ a b r V). lia.
  - intros ->. rewrite <- Es. symmetry. apply substring_split3; assumption.
Qed.

Lemma ai_action_replaces_selection_witness :
  App.markdown
    (App.handleAiAction (fun _ _ _ => App.Resolved (lit "BETTER"))
       {| App.markdown := lit "a bad text";
          App.selection := App.handleSelect (lit "a bad text") 2 5;
          App.isLoading := false; App.modalContent := None |}
       App.IMPROVE None)
  = lit "a BETTER text".
Proof.
  refine (proj1 (ai_action_replaces_selection
                   (fun _ _ _ => App.Resolved (lit "BETTER"))
                   {| App.markdown := lit "a bad text";
                      App.selection := App.handleSelect (lit "a bad text") 2 5;
                      App.isLoading := false; App.modalContent := None |}
                   App.IMPROVE None 2 5 (lit "BETTER") _ _ _ eq_refl eq_refl)).
  - left. reflexivity.
  - unfold validRange. vm_compute. intuition discriminate.
  - reflexivity.
Defined.

(** X20. The outline from a prompt is appended to the trimmed document: with
    a prompt that is not empty the service is sent the prompt, and its
    answer is written after the document without the white space at its
    ends and after two newlines; without options, or with a prompt that is
    missing or empty, nothing is sent and the document stays as it is. *)
Theorem ai_outline_from_prompt
    (run : App.AiAction -> list N -> option App.Options -> App.ServiceResult)
    (st : App.State) (options : option App.Options) :
  (forall o p r,
     options = Some o -> App.prompt o = Some p -> p <> [] ->
     run App.GENERATE_OUTLINE_FROM_PROMPT p options = App.Resolved r ->
     App.markdown
       (App.handleAiAction run st App.GENERATE_OUTLINE_FROM_PROMPT options)
     = trim (App.markdown st) ++ [NL; NL] ++ r
     /\ (forallb isWhiteSpace (App.markdown st) = true ->
         App.markdown
           (App.handleAiAction run st App.GENERATE_OUTLINE_FROM_PROMPT options)
         = NL :: NL :: r))
  /\ (options = None
      \/ (exists o, options = Some o /\ truthy (App.prompt o) = false) ->
      App.handleAiAction run st App.GENERATE_OUTLINE_FROM_PROMPT options
      = {| App.markdown := App.markdown st;
           App.selection := App.selection st;
           App.isLoading := false;
           App.modalContent := App.modalContent st |}).
Proof.
  split.
  - intros o p r -> Hp Hne Hrun. unfold App.handleAiAction, App.prepare.
    rewrite Hp, truthy_some by exact Hne. cbn [toString].
    rewrite Hrun. cbn [App.markdown].
    split; [reflexivity |]. intros Hb. apply trim_nil in Hb. rewrite Hb.
    reflexivity.
  - intros [-> | (o & -> & Hf)]; unfold App.handleAiAction, App.prepare;
      [| rewrite Hf]; reflexivity.
Qed.

Lemma ai_outline_from_prompt_witness :
  App.markdown
    (App.handleAiAction (fun _ t _ => App.Resolved (lit "- " ++ t))
       {| App.markdown := lit " Notes  "; App.selection := None;
          App.isLoading := false; App.modalContent := None |}
       App.GENERATE_OUTLINE_FROM_PROMPT
       (Some {| App.tone := None; App.prompt := Some (lit "plan") |}))
  = lit "Notes" ++ [NL; NL] ++ lit "- plan".
Proof.
  refine (proj1 (proj1 (ai_outline_from_prompt
                          (fun _ t _ => App.Resolved (lit "- " ++ t))
                          {| App.markdown := lit " Notes  ";
                             App.selection := None;
                             App.isLoading := false;
                             App.modalContent := None |}
                          (Some {| App.tone := None;
                                   App.prompt := Some (lit "plan") |}))
                   _ (lit "plan") (lit "- plan") eq_refl eq_refl _ eq_refl)).
  discriminate.
Defined.

(** X21. The view button tells where it leads: [cycleViewMode] goes through
    the three view modes and is back after three steps and not before, and
    the title [viewModeTitle] gives the button in a mode names the mode
    [cycleViewMode] leads to from it. *)
Theorem view_mode_cycle (v : App.ViewMode) :
  App.cycleViewMode v <> v
  /\ App.cycleViewMode (App.cycleViewMode v) <> v
  /\ App.cycleViewMode (App.cycleViewMode (App.cycleViewMode v)) = v
  /\ (Menubar.viewModeTitle v = lit "Cycle to Editor View"
      <-> App.cycleViewMode v = App.editor)
  /\ (Menubar.viewModeTitle v = lit "Cycle to Preview View"
      <-> App.cycleViewMode v = App.preview)
  /\ (Menubar.viewModeTitle v = lit "Cycle to Split View"
      <-> App.cycleViewMode v = App.split).
Proof.
  destruct v; cbn [App.cycleViewMode Menubar.viewModeTitle];
    repeat split; intros; (discriminate || reflexivity).
Qed.

(** ** The chat window *)

Lemma inTurns_app (ms tail : list ChatModal.ChatMessage) :
  ChatModal.inTurns ms = true -> ChatModal.inTurns tail = true ->
  ChatModal.inTurns (ms ++ tail) = true.
Proof.
  intros Hm Ht.
  assert (H : forall l,
             (ChatModal.inTurns l = true ->
              ChatModal.inTurns (l ++ tail) = true)
             /\ forall a,
                  ChatModal.inTurns (a :: l) = true ->
                  ChatModal.inTurns ((a :: l) ++ tail) = true).
  { induction l as [| x l (IH1 & IH2)].
    - split; [intros _; exact Ht |].
      intros a H. cbn in H. destruct (ChatModal.sender a); discriminate H.
    - split; [apply IH2 |].
      intros a H. cbn [app ChatModal.inTurns] in *.
      destruct (ChatModal.sender a); [| discriminate H].
      destruct (ChatModal.sender x); [discriminate H |].
      apply IH1. exact H. }
  apply H. exact Hm.
Qed.

Lemma handleSend_blank (run : list N -> App.ServiceResult)
    (st : ChatModal.State) :
  ChatModal.sendable (ChatModal.input st) = false ->
  ChatModal.handleSend run st = st.
Proof.
  unfold ChatModal.sendable, ChatModal.handleSend.
  destruct (trim (ChatModal.input st)); [reflexivity | discriminate].
Qed.

Lemma handleSend_sends (run : list N -> App.ServiceResult)
    (st : ChatModal.State) :
  ChatModal.sendable (ChatModal.input st) = true ->
  exists reply,
    ChatModal.sender reply = ChatModal.bot
    /\ ChatModal.handleSend run st
       = {| ChatModal.messages :=
              ChatModal.messages st
                ++ [{| ChatModal.sender := ChatModal.user;
                       ChatModal.text := ChatModal.input st |}; reply];
            ChatModal.input := [];
            ChatModal.isLoading := false |}.
Proof.
  unfold ChatModal.sendable, ChatModal.handleSend.
  destruct (trim (ChatModal.input st)); [discriminate |]. intros _.
  rewrite <- app_assoc. cbn [app].
  destruct (run (ChatModal.input st)) as [r | [m |]];
    eexists; (split; [| reflexivity]); reflexivity.
Qed.

(** X22. The chat keeps its transcript in turns: whatever is typed and sent,
    and however the service answers or fails, a transcript made of a
    message of the user and a reply of the bot in turn stays one; an input
    that is blank is not sent; and the messages of the user are, in order,
    the inputs that were not blank, as they were typed, two messages being
    added for each. *)
Theorem chat_transcript_in_turns (run : list N -> App.ServiceResult)
    (typed : list (list N)) (st : ChatModal.State) :
  ChatModal.inTurns (ChatModal.messages st) = true ->
  ChatModal.inTurns
    (ChatModal.messages (ChatModal.conversation run st typed)) = true
  /\ map ChatModal.text
       (filter ChatModal.fromUser
          (ChatModal.messages (ChatModal.conversation run st typed)))
     = map ChatModal.text
         (filter ChatModal.fromUser (ChatModal.messages st))
         ++ filter ChatModal.sendable typed
  /\ length (ChatModal.messages (ChatModal.conversation run st typed))
     = (length (ChatModal.messages st)
        + 2 * length (filter ChatModal.sendable typed))%nat.
Proof.
  revert st. induction typed as [| v typed IH]; intros st Hst.
  - cbn [ChatModal.conversation fold_left filter length].
    rewrite app_nil_r. split; [exact Hst | split; [reflexivity | lia]].
  - unfold ChatModal.conversation. cbn [fold_left filter].
    fold (ChatModal.conversation run
            (ChatModal.handleSend run (ChatModal.setInput st v)) typed).
    destruct (ChatModal.sendable v) eqn:Hv.
    + destruct (handleSend_sends run (ChatModal.setInput st v) Hv)
        as (reply & Hr & E).
      cbn [ChatModal.setInput ChatModal.messages ChatModal.input] in E.
      destruct (IH (ChatModal.handleSend run (ChatModal.setInput st v)))
        as (I1 & I2 & I3).
      * rewrite E. cbn [ChatModal.messages].
        apply inTurns_app; [exact Hst |].
        cbn [ChatModal.inTurns ChatModal.sender]. rewrite Hr. reflexivity.
      * split; [exact I1 | split].
        -- rewrite I2, E. cbn [ChatModal.messages].
           rewrite filter_app, map_app, <- app_assoc. f_equal.
           cbn [filter ChatModal.fromUser ChatModal.sender].
           unfold ChatModal.fromUser at 1. rewrite Hr. reflexivity.
        -- rewrite I3, E. cbn [ChatModal.messages length].
           rewrite length_app. cbn [length]. lia.
    + rewrite (handleSend_blank run (ChatModal.setInput st v) Hv).
      destruct (IH (ChatModal.setInput st v) Hst) as (I1 & I2 & I3).
      split; [exact I1 | split; [exact I2 | exact I3]].
Qed.

Lemma chat_transcript_in_turns_witness :
  map ChatModal.text
    (filter ChatModal.fromUser
       (ChatModal.messages
          (ChatModal.conversation (fun t => App.Resolved t)
             {| ChatModal.messages := []; ChatModal.input := [];
                ChatModal.isLoading := false |}
             [lit "hi"; lit "  "; lit "bye"])))
  = [lit "hi"; lit "bye"].
Proof.
  refine (proj1 (proj2 (chat_transcript_in_turns (fun t => App.Resolved t)
                          [lit "hi"; lit "  "; lit "bye"]
                          {| ChatModal.messages := []; ChatModal.input := [];
                             ChatModal.isLoading := false |} eq_refl))).
Defined.
